(** * num-radix: radix encoding and decoding ([radix.py])

    A shallow embedding of the [Radix] class of [radix.py] and the
    properties its specification states about it.

    Python values are modelled as follows.
    - [str] is a list of Unicode code points ([N]); a one-character string
      and a character are the same thing, as in Python.
    - [int] is [Z].
    - [float] is IEEE 754 binary64, through the Standard Library's
      [spec_float] and its operations at precision 53 and exponent bound 1024.
    - A call either returns, raises an exception, or runs out of the fuel
      that bounds the [while] loop of [encode]. *)

From Stdlib Require Import ZArith NArith List Bool Lia String Ascii.
From Stdlib Require Import Floats.SpecFloat.
From Stdlib Require Import DecimalFacts DecimalPos DecimalN DecimalZ.
Import ListNotations.

Local Open Scope Z_scope.

(** ** Python strings *)

Definition char := N.
Definition str := list char.

(** [lit "abc"] is the Python string literal ["abc"] (ASCII only). *)
Definition lit (s : string) : str := map N_of_ascii (list_ascii_of_string s).

Definition char_eqb (a b : char) : bool := N.eqb a b.

(** [len(s)] *)
Definition len {A} (s : list A) : Z := Z.of_nat (List.length s).

(** [c in s] for a one-character [c]. *)
Definition char_in (c : char) (s : str) : bool := existsb (char_eqb c) s.

(** [s.startswith(p)] *)
Fixpoint startswith (p s : str) : bool :=
  match p, s with
  | [], _ => true
  | _ :: _, [] => false
  | a :: p', b :: s' => char_eqb a b && startswith p' s'
  end.

(** [s.endswith(p)] *)
Definition endswith (p s : str) : bool := startswith (rev p) (rev s).

(** [s.index(sub)]: the lowest index at which [sub] occurs, [None] standing
    for the [ValueError] that Python raises when there is none. *)
Fixpoint str_index (sub s : str) : option nat :=
  if startswith sub s then Some O
  else match s with
       | [] => None
       | _ :: t => option_map S (str_index sub t)
       end.

(** [s.index(c)] for a one-character [c]. *)
Fixpoint index_of (c : char) (s : str) : option nat :=
  match s with
  | [] => None
  | d :: t => if char_eqb c d then Some O else option_map S (index_of c t)
  end.

Fixpoint dropwhile (p : char -> bool) (s : str) : str :=
  match s with
  | [] => []
  | c :: t => if p c then dropwhile p t else s
  end.

Fixpoint takewhile (p : char -> bool) (s : str) : str :=
  match s with
  | [] => []
  | c :: t => if p c then c :: takewhile p t else []
  end.

(** [int(s)] for a string [s] of decimal digits only; [None] stands for the
    [ValueError] that the empty string raises.  The bound that recent
    CPython puts on the number of digits is not modelled. *)
Definition int_of_digits (s : str) : option Z :=
  match s with
  | [] => None
  | _ => Some (fold_left (fun acc c => acc * 10 + (Z.of_N c - 48)) s 0)
  end.

(** [str.isspace] on one code point: the Unicode white space of CPython. *)
Definition isspace (c : char) : bool :=
  let c := Z.of_N c in
  ((9 <=? c) && (c <=? 13)) || ((28 <=? c) && (c <=? 32))
  || (c =? 133) || (c =? 160) || (c =? 5760)
  || ((8192 <=? c) && (c <=? 8202))
  || (c =? 8232) || (c =? 8233) || (c =? 8239) || (c =? 8287) || (c =? 12288).

(** [s.strip()] *)
Definition strip (s : str) : str :=
  rev (dropwhile isspace (rev (dropwhile isspace s))).

(** [s.rstrip(chars)] *)
Definition rstrip (chars s : str) : str :=
  rev (dropwhile (fun c => char_in c chars) (rev s)).

(** The empty string literal. *)
Definition empty_str : str := [].

(** [string.digits], [string.ascii_uppercase], [string.ascii_lowercase] *)
Definition string_digits : str := lit "0123456789".
Definition string_ascii_uppercase : str := lit "ABCDEFGHIJKLMNOPQRSTUVWXYZ".
Definition string_ascii_lowercase : str := lit "abcdefghijklmnopqrstuvwxyz".

(** [s.replace(c, e)] for a one-character [c] and the empty string [e]. *)
Definition remove_char (c : char) (s : str) : str :=
  filter (fun d => negb (char_eqb c d)) s.

(** ** Exceptions and results *)

Inductive exn :=
| ValueError (msg : str)
| TypeError
| IndexError
| ZeroDivisionError
| OverflowError.

Inductive result (A : Type) :=
| Ok (a : A)
| Raise (e : exn)
| OutOfFuel.
Arguments Ok {A} a.
Arguments Raise {A} e.
Arguments OutOfFuel {A}.

Definition bind {A B} (c : result A) (k : A -> result B) : result B :=
  match c with
  | Ok a => k a
  | Raise e => Raise e
  | OutOfFuel => OutOfFuel
  end.

Notation "x <- c ;; k" := (bind c (fun x => k))
  (at level 61, c at next level, right associativity).
Notation "' p <- c ;; k" := (bind c (fun x => let p := x in k))
  (at level 61, p pattern, c at next level, right associativity).

(** ** Python numbers *)

Definition float := spec_float.

Definition prec : Z := 53.
Definition emax : Z := 1024.

Definition fmul : float -> float -> float := SFmul prec emax.
Definition fadd : float -> float -> float := SFadd prec emax.
Definition flt : float -> float -> bool := SFltb.

(** The binary64 value nearest to [p / q] for [0 < q], ties to even: what
    Python gives for a decimal literal or [float(s)] denoting [p / q]. *)
Definition float_of_ratio (p q : Z) : float :=
  match p with
  | Z0 => S754_zero false
  | Zpos _ =>
      let '(m, e, l) := SFdiv_core_binary prec emax p 0 q 0 in
      binary_round_aux prec emax false m e l
  | Zneg p' =>
      let '(m, e, l) := SFdiv_core_binary prec emax (Zpos p') 0 q 0 in
      binary_round_aux prec emax true m e l
  end.

Definition float_zero : float := S754_zero false.
Definition float_half : float := float_of_ratio 1 2.
Definition float_minus_one : float := float_of_ratio (-1) 1.

(** [float(z)] and the implicit conversion of an [int] operand next to a
    [float] one: the nearest binary64, [OverflowError] beyond the range. *)
Definition float_of_int (z : Z) : result float :=
  match binary_normalize prec emax z 0 false with
  | S754_infinity _ => Raise OverflowError
  | f => Ok f
  end.

(** [int(x)] for a float [x]: truncation toward zero. *)
Definition int_of_float (x : float) : result Z :=
  match x with
  | S754_zero _ => Ok 0
  | S754_finite s m e =>
      let a := if 0 <=? e then Zpos m * 2 ^ e else Zpos m / 2 ^ (- e) in
      Ok (if s then - a else a)
  | S754_infinity _ => Raise OverflowError
  | S754_nan => Raise (ValueError (lit "cannot convert float NaN to integer"))
  end.

(** [divmod(x, 1)] for a float [x], as CPython computes it from [fmod]: the
    floor of [x] and [x] minus that floor, both floats.  On a finite
    non-negative [x] both are exact; on a negative [x] with a fraction the
    remainder is the rounded sum of the negative fraction and 1.  An
    infinity or a NaN gives two NaNs. *)
Definition float_divmod1 (x : float) : float * float :=
  match x with
  | S754_zero s => (S754_zero s, S754_zero false)
  | S754_finite s m e =>
      if 0 <=? e then (x, S754_zero false)
      else
        let q := Zpos m / 2 ^ (- e) in
        let r := Zpos m mod 2 ^ (- e) in
        if negb s then
          (binary_normalize prec emax q 0 false,
           binary_normalize prec emax r e false)
        else if r =? 0 then
          (binary_normalize prec emax (- q) 0 true, S754_zero false)
        else
          (binary_normalize prec emax (- (q + 1)) 0 true,
           fadd (binary_normalize prec emax (- r) e false)
                (float_of_ratio 1 1))
  | _ => (S754_nan, S754_nan)
  end.

(** The ten decimal digit characters of a [Decimal.uint]. *)
Fixpoint str_of_uint (u : Decimal.uint) : str :=
  match u with
  | Decimal.Nil => []
  | Decimal.D0 u => 48%N :: str_of_uint u
  | Decimal.D1 u => 49%N :: str_of_uint u
  | Decimal.D2 u => 50%N :: str_of_uint u
  | Decimal.D3 u => 51%N :: str_of_uint u
  | Decimal.D4 u => 52%N :: str_of_uint u
  | Decimal.D5 u => 53%N :: str_of_uint u
  | Decimal.D6 u => 54%N :: str_of_uint u
  | Decimal.D7 u => 55%N :: str_of_uint u
  | Decimal.D8 u => 56%N :: str_of_uint u
  | Decimal.D9 u => 57%N :: str_of_uint u
  end.

(** [format(z, "d")] for an int [z]. *)
Definition format_d (z : Z) : str :=
  match Z.to_int z with
  | Decimal.Pos u => str_of_uint u
  | Decimal.Neg u => lit "-" ++ str_of_uint u
  end.

(** [n * "1"] read as a decimal numeral, and [int(n * "1")]. *)
Fixpoint ones (n : nat) : Decimal.uint :=
  match n with
  | O => Decimal.Nil
  | S n' => Decimal.D1 (ones n')
  end.

Definition repunit (n : nat) : Z := Z.of_uint (ones n).

(** The integer nearest to [n / d] for [0 <= n] and [0 < d], ties to even. *)
Definition round_half_even (n d : Z) : Z :=
  let q := n / d in
  let r := n mod d in
  match 2 * r ?= d with
  | Lt => q
  | Gt => q + 1
  | Eq => if Z.even q then q else q + 1
  end.

(** [format(x, ".<p>f")] for a float [x] and a precision [0 <= p]: the
    exact value of [x] rounded to [p] decimals, ties to even, with a point
    only when [p] is positive.  A negative [p] is written [".-3f"], which
    [format] refuses. *)
Definition format_f (x : float) (p : Z) : result str :=
  if p <? 0 then Raise (ValueError (lit "Format specifier missing precision"))
  else
    let fixed (s : bool) (k : Z) : str :=
      let ds := str_of_uint (N.to_uint (Z.to_N k)) in
      let ds := repeat 48%N (Z.to_nat p + 1 - List.length ds) ++ ds in
      let n := (List.length ds - Z.to_nat p)%nat in
      (if s then lit "-" else [])
      ++ firstn n ds
      ++ (if p =? 0 then [] else lit "." ++ skipn n ds) in
    match x with
    | S754_zero s => Ok (fixed s 0)
    | S754_finite s m e =>
        Ok (fixed s (if 0 <=? e then Zpos m * 2 ^ e * 10 ^ p
                     else round_half_even (Zpos m * 10 ^ p) (2 ^ (- e))))
    | S754_infinity s => Ok ((if s then lit "-" else []) ++ lit "inf")
    | S754_nan => Ok (lit "nan")
    end.

(** A Python number: an [int] or a [float]. *)
Inductive num :=
| Int (z : Z)
| Float (x : float).

(** [s[i]] *)
Definition getitem (s : str) (i : Z) : result char :=
  let j := if i <? 0 then len s + i else i in
  if j <? 0 then Raise IndexError
  else match nth_error s (Z.to_nat j) with
       | Some c => Ok c
       | None => Raise IndexError
       end.

(** ** The [Radix] class *)

Module Radix.

(** An instance: the attributes [_digits] and [_base] behind the [digits]
    property, and the five public symbol attributes. *)
Record t := mk {
  _digits : str;
  _base : Z;
  sep : str;
  neg : str;
  tsep : str;
  pos : str;
  exp : str
}.

(** The [digits] property and its setter, and the [base] property. *)
Definition digits (self : t) : str := _digits self.

Definition set_digits (self : t) (digits : str) : t :=
  mk digits (len digits)
     (sep self) (neg self) (tsep self) (pos self) (exp self).

Definition base (self : t) : Z := _base self.

(** Keyword arguments of the constructor; [None] is an absent keyword. *)
Record kwargs := mk_kwargs {
  kw_sep : option str;
  kw_neg : option str;
  kw_tsep : option str;
  kw_pos : option str;
  kw_exp : option str
}.

Definition no_kwargs : kwargs := mk_kwargs None None None None None.

Definition get_default (o : option str) (d : string) : str :=
  match o with Some s => s | None => lit d end.

(** [kwargs.setdefault("sep", d)] *)
Definition setdefault_sep (kw : kwargs) (d : string) : kwargs :=
  mk_kwargs (Some (get_default (kw_sep kw) d))
            (kw_neg kw) (kw_tsep kw) (kw_pos kw) (kw_exp kw).

(** [Radix(digits, **kw)]: [__init__] assigns the six attributes, the first
    through the [digits] setter.  No statement of it raises. *)
Definition init (digits : str) (kw : kwargs) : result t :=
  let self := mk [] 0 [] [] [] [] [] in
  let self := set_digits self digits in
  Ok (mk (_digits self) (_base self)
         (get_default (kw_sep kw) ".")
         (get_default (kw_neg kw) "-")
         (get_default (kw_tsep kw) ",")
         (get_default (kw_pos kw) "+")
         (get_default (kw_exp kw) "e")).

(** [s[:n]] for a non-negative [n]. *)
Definition slice_to (n : Z) (s : str) : str := firstn (Z.to_nat n) s.

Definition by_base (base : Z) (kw : kwargs) : result t :=
  init (slice_to (Z.abs base)
          (string_digits ++ string_ascii_uppercase
           ++ string_ascii_lowercase ++ empty_str))
       kw.

Definition bin (kw : kwargs) : result t := init (lit "01") kw.

Definition oct (kw : kwargs) : result t := init (slice_to 8 string_digits) kw.

Definition hex (kw : kwargs) : result t :=
  init (string_digits ++ lit "ABCDEF") kw.

Definition hex_lc (kw : kwargs) : result t :=
  init (string_digits ++ lit "abcdef") kw.

Definition dozenal (kw : kwargs) : result t :=
  init (string_digits ++ lit "XE") (setdefault_sep kw ";").

(** The digits U+218A and U+218B. *)
Definition dozenal_pitman (kw : kwargs) : result t :=
  init (string_digits ++ [8586%N; 8587%N]) (setdefault_sep kw ";").

Definition dozenal_pitman_ascii (kw : kwargs) : result t :=
  init (string_digits ++ lit "TE") (setdefault_sep kw ";").

(** The digits U+1D4B3 and U+2130. *)
Definition dozenal_dwiggins (kw : kwargs) : result t :=
  init (string_digits ++ [119987%N; 8496%N]) (setdefault_sep kw ";").

Definition dozenal_kramer (kw : kwargs) : result t :=
  init (string_digits ++ lit "*#") (setdefault_sep kw ";").

Definition base62 (kw : kwargs) : result t :=
  init (string_digits ++ string_ascii_uppercase ++ string_ascii_lowercase) kw.

Definition base57 (kw : kwargs) : result t :=
  let digits :=
    string_ascii_uppercase ++ string_ascii_lowercase ++ string_digits in
  let digits := remove_char 73%N digits in   (* "I" *)
  let digits := remove_char 108%N digits in  (* "l" *)
  let digits := remove_char 49%N digits in   (* "1" *)
  let digits := remove_char 79%N digits in   (* "O" *)
  let digits := remove_char 48%N digits in   (* "0" *)
  init digits kw.

(** Assignments a caller can make to an instance: the [digits] property and
    the five plain attributes.  [encode] and [decode] below only read
    [self]. *)
Inductive assignment :=
| AssignDigits (v : str)
| AssignSep (v : str)
| AssignNeg (v : str)
| AssignTsep (v : str)
| AssignPos (v : str)
| AssignExp (v : str).

Definition assign (self : t) (a : assignment) : t :=
  match a with
  | AssignDigits v => set_digits self v
  | AssignSep v =>
      mk (_digits self) (_base self) v (neg self) (tsep self) (pos self) (exp self)
  | AssignNeg v =>
      mk (_digits self) (_base self) (sep self) v (tsep self) (pos self) (exp self)
  | AssignTsep v =>
      mk (_digits self) (_base self) (sep self) (neg self) v (pos self) (exp self)
  | AssignPos v =>
      mk (_digits self) (_base self) (sep self) (neg self) (tsep self) v (exp self)
  | AssignExp v =>
      mk (_digits self) (_base self) (sep self) (neg self) (tsep self) (pos self) v
  end.

(** *** [encode]

    The format argument [fmt] is [None] or an [int]; a format given as a
    string goes through Python's format mini-language and [math.log] and is
    outside this embedding.  With such an [fmt] the variable [exponent] is
    [None] throughout. *)

(** [if not fmt] *)
Definition not_fmt (fmt : option Z) : bool :=
  match fmt with
  | None => true
  | Some z => z =? 0
  end.

(** [integer, fraction = divmod(abs(number), 1)] and [integer = int(integer)];
    the fraction of an [int] is the [int] 0, here [None], and that of a
    [float] is a [float]: [has_fraction] is [true] exactly on [Some]. *)
Definition split_number (n : num) : result (Z * option float) :=
  match n with
  | Int z => Ok (Z.abs z, None)
  | Float x =>
      let '(integer, fraction) := float_divmod1 (SFabs x) in
      integer <- int_of_float integer ;;
      Ok (integer, Some fraction)
  end.

(** [number < 0] *)
Definition is_negative (n : num) : bool :=
  match n with
  | Int z => z <? 0
  | Float x => flt x float_zero
  end.

(** The loop [while integer: integer, index = divmod(integer, self.base);
    indexes.insert(0, index)]. *)
Fixpoint while_integer (fuel : nat) (base integer : Z) (indexes : list Z)
  : result (list Z) :=
  if integer =? 0 then Ok indexes
  else match fuel with
       | O => OutOfFuel
       | S fuel' =>
           if base =? 0 then Raise ZeroDivisionError
           else while_integer fuel' base (integer / base)
                  ((integer mod base) :: indexes)
       end.

(** The digits of the integer part, most significant first. *)
Definition integer_indexes (fuel : nat) (base integer : Z) : result (list Z) :=
  if integer =? 0 then Ok [0] else while_integer fuel base integer [].

(** The template: a run of ones of the shape the output is to have, put
    through [format].  It returns the scale next to the template. *)
Definition make_template (n : num) (fmt : option Z)
    (has_fraction : bool) (indexes : list Z) : result (Z * str) :=
  if has_fraction then
    let scale :=
      match fmt with
      | Some z => if z =? 0 then 17 - len indexes else z
      | None => 17 - len indexes
      end in
    let template :=
      float_of_ratio
        (repunit (List.length indexes + Z.to_nat scale))
        (10 ^ Z.max scale 0) in
    let template :=
      if is_negative n then fmul template float_minus_one else template in
    template <- format_f template scale ;;
    Ok (scale, template)
  else if not_fmt fmt then
    let template := repunit (List.length indexes) in
    let template := if is_negative n then template * -1 else template in
    Ok (0, format_d template)
  else Raise TypeError.

(** The loop [for i in range(scale): index, fraction =
    divmod(fraction*self.base, 1); indexes.append(int(index))]. *)
Fixpoint fraction_indexes (n : nat) (base : Z) (fraction : float)
    (indexes : list Z) : result (list Z * float) :=
  match n with
  | O => Ok (indexes, fraction)
  | S n' =>
      b <- float_of_int base ;;
      let '(index, fraction) := float_divmod1 (fmul fraction b) in
      index <- int_of_float index ;;
      fraction_indexes n' base fraction (indexes ++ [index])
  end.

(** The loop [for i in range(len(indexes)-1, -1, -1)] over the reversed
    list; the flag tells whether the loop ended without [break].  Every
    element is an [int], so the first test of the body never holds. *)
Fixpoint carry (base : Z) (rev_indexes : list Z) : list Z * bool :=
  match rev_indexes with
  | [] => ([], true)
  | index :: rest =>
      if index + 1 =? base then
        let '(rest', exhausted) := carry base rest in (0 :: rest', exhausted)
      else ((index + 1) :: rest, false)
  end.

(** [if fraction > 0.5: ... else: indexes.insert(0, 1)] *)
Definition round_indexes (base : Z) (fraction : float) (indexes : list Z)
  : list Z :=
  if flt float_half fraction then
    let '(r, exhausted) := carry base (rev indexes) in
    if exhausted then 1 :: rev r else rev r
  else indexes.

(** [[self.digits[index] for index in indexes]] *)
Fixpoint lookup_digits (self : t) (indexes : list Z) : result (list char) :=
  match indexes with
  | [] => Ok []
  | index :: rest =>
      d <- getitem (digits self) index ;;
      ds <- lookup_digits self rest ;;
      Ok (d :: ds)
  end.

(** [_fill_template]: the loop over the characters of the template, with
    the state [is_left_fill], [digits] and [output]. *)
Fixpoint fill_template_loop (self : t) (template : str) (is_left_fill : bool)
    (digits : list char) (output : str) : result str :=
  match template with
  | [] => Ok output
  | c :: template' =>
      let is_left_fill :=
        if is_left_fill && char_in c (skipn 1 string_digits) then false
        else is_left_fill in
      if char_in c string_digits then
        match digits, is_left_fill with
        | d :: digits', false =>
            fill_template_loop self template' is_left_fill digits' (output ++ [d])
        | _, _ =>
            z <- getitem (Radix.digits self) 0 ;;
            fill_template_loop self template' is_left_fill digits (output ++ [z])
        end
      else if char_eqb c 45%N then      (* "-" *)
        fill_template_loop self template' is_left_fill digits (output ++ neg self)
      else if char_eqb c 46%N then (* "." *)
        fill_template_loop self template' is_left_fill digits (output ++ sep self)
      else if char_eqb c 44%N then (* "," *)
        fill_template_loop self template' is_left_fill digits (output ++ tsep self)
      else if char_eqb c 43%N then (* "+" *)
        fill_template_loop self template' is_left_fill digits (output ++ pos self)
      else
        fill_template_loop self template' is_left_fill digits (output ++ [c])
  end.

Definition _fill_template (self : t) (template : str) (digits : list char)
  : result str :=
  fill_template_loop self template true digits [].

Definition encode (fuel : nat) (self : t) (n : num) (fmt : option Z)
  : result str :=
  '(integer, fraction) <- split_number n ;;
  let has_fraction := match fraction with Some _ => true | None => false end in
  indexes <- integer_indexes fuel (base self) integer ;;
  '(scale, template) <- make_template n fmt has_fraction indexes ;;
  indexes <-
    match fraction with
    | Some fraction =>
        '(indexes, fraction) <-
          fraction_indexes (Z.to_nat scale) (base self) fraction indexes ;;
        Ok (round_indexes (base self) fraction indexes)
    | None => Ok indexes
    end ;;
  digits <- lookup_digits self indexes ;;
  output <- _fill_template self template digits ;;
  if has_fraction && not_fmt fmt then
    zero <- getitem (Radix.digits self) 0 ;;
    let output := rstrip [zero] output in
    if endswith (sep self) output then
      zero <- getitem (Radix.digits self) 0 ;;
      Ok (output ++ [zero])
    else Ok output
  else Ok output.

(** *** [_get_scale_from_format]

    The digits that follow the first point of a format string, as an
    [int]; every exception inside, from [fmt.index] when there is no point
    and from [int] when no digit follows it, is caught and gives [None]. *)
Definition _get_scale_from_format (fmt : str) : option Z :=
  match str_index (lit ".") fmt with
  | None => None
  | Some i =>
      int_of_digits
        (takewhile (fun c => char_in c string_digits) (skipn (i + 1) fmt))
  end.

(** *** [decode] *)

Section Decode.

(** [libm_pow b e] is what the C library's [pow] returns on the doubles [b]
    and [e]: CPython computes [b ** e] with it when the exponent [e] is a
    negative [int].  The C standard does not fix its rounding, so it stays a
    parameter. *)
Variable libm_pow : Z -> Z -> float.

(** [b ** e] for two ints. *)
Definition py_pow (b e : Z) : result num :=
  if 0 <=? e then Ok (Int (b ^ e))
  else if b =? 0 then Raise ZeroDivisionError
  else Ok (Float (libm_pow b e)).

(** [a * b] and [a + b] *)
Definition py_mul (a b : num) : result num :=
  match a, b with
  | Int x, Int y => Ok (Int (x * y))
  | Int x, Float y => x <- float_of_int x ;; Ok (Float (fmul x y))
  | Float x, Int y => y <- float_of_int y ;; Ok (Float (fmul x y))
  | Float x, Float y => Ok (Float (fmul x y))
  end.

Definition py_add (a b : num) : result num :=
  match a, b with
  | Int x, Int y => Ok (Int (x + y))
  | Int x, Float y => x <- float_of_int x ;; Ok (Float (fadd x y))
  | Float x, Int y => y <- float_of_int y ;; Ok (Float (fadd x y))
  | Float x, Float y => Ok (Float (fadd x y))
  end.

Definition invalid_digit (digit : char) : exn :=
  ValueError (lit "Invalid digit '" ++ [digit] ++ lit "'").

(** The loop [for digit in number] with the state [output], [exponent]. *)
Fixpoint decode_loop (self : t) (number : str) (output : num)
    (exponent : Z) : result num :=
  match number with
  | [] => Ok output
  | digit :: rest =>
      match index_of digit (digits self) with
      | None => Raise (invalid_digit digit)
      | Some i =>
          p <- py_pow (base self) exponent ;;
          term <- py_mul (Int (Z.of_nat i)) p ;;
          output <- py_add output term ;;
          decode_loop self rest output (exponent - 1)
      end
  end.

(** The string left after [strip] and the removal of a leading sign. *)
Definition unsigned_part (self : t) (s : str) : bool * str :=
  let number := strip s in
  let is_negative := startswith (neg self) number in
  if is_negative || startswith (pos self) number
  then (is_negative, skipn 1 number)
  else (is_negative, number).

(** The first exponent and the digit run: the string with the first
    occurrence of the separator taken out. *)
Definition digit_run (self : t) (number : str) : Z * str :=
  match str_index (sep self) number with
  | Some i =>
      let exponent := Z.of_nat i - 1 in
      (exponent,
       firstn (Z.to_nat (exponent + 1)) number
       ++ skipn (Z.to_nat (exponent + 2)) number)
  | None => (len number - 1, number)
  end.

Definition decode (self : t) (s : str) : result num :=
  let '(is_negative, number) := unsigned_part self s in
  let '(exponent, number) := digit_run self number in
  output <- decode_loop self number (Int 0) exponent ;;
  if is_negative then py_mul output (Int (-1)) else Ok output.

End Decode.

End Radix.

(** ** The [RadixFormatWrapper] class and [Radix.wrap] *)

Module RadixFormatWrapper.

Record t := mk {
  number : num;
  radix : Radix.t
}.

(** [RadixFormatWrapper(number, radix)]: a string is decoded at once. *)
Definition init (libm_pow : Z -> Z -> float) (number : num + str)
    (radix : Radix.t) : result t :=
  match number with
  | inl n => Ok (mk n radix)
  | inr s => n <- Radix.decode libm_pow radix s ;; Ok (mk n radix)
  end.

Definition __str__ (fuel : nat) (self : t) : result str :=
  Radix.encode fuel (radix self) (number self) None.

End RadixFormatWrapper.

Set Warnings "-register-all".

(** The objects [wrap] is modelled on: numbers, strings, and tuples and
    lists of such objects. *)
Inductive pyobj :=
| ObjNum (n : num)
| ObjStr (s : str)
| ObjTuple (items : list pyobj)
| ObjList (items : list pyobj).

(** What [wrap] returns: a wrapper, or a tuple or list of results. *)
Inductive wrapped :=
| Wrapper (w : RadixFormatWrapper.t)
| WTuple (items : list wrapped)
| WList (items : list wrapped).

(** [self.wrap(obj)] on one argument: a number or a string is wrapped,
    anything else is rebuilt, by [type(obj)(self.wrap(x) for x in obj)],
    from the results on its elements taken from left to right. *)
Fixpoint wrap_obj (libm_pow : Z -> Z -> float) (self : Radix.t)
    (obj : pyobj) : result wrapped :=
  let each :=
    fix each (items : list pyobj) : result (list wrapped) :=
      match items with
      | [] => Ok []
      | x :: rest =>
          w <- wrap_obj libm_pow self x ;;
          ws <- each rest ;;
          Ok (w :: ws)
      end in
  match obj with
  | ObjNum n =>
      w <- RadixFormatWrapper.init libm_pow (inl n) self ;; Ok (Wrapper w)
  | ObjStr s =>
      w <- RadixFormatWrapper.init libm_pow (inr s) self ;; Ok (Wrapper w)
  | ObjTuple items => ws <- each items ;; Ok (WTuple ws)
  | ObjList items => ws <- each items ;; Ok (WList ws)
  end.

(** [self.wrap] on its argument tuple: one argument stands for itself, any
    other number of arguments is the tuple of them. *)
Definition wrap (libm_pow : Z -> Z -> float) (self : Radix.t)
    (obj : list pyobj) : result wrapped :=
  match obj with
  | [x] => wrap_obj libm_pow self x
  | _ => wrap_obj libm_pow self (ObjTuple obj)
  end.

(** ** Notions used by the statements *)

(** The number a list of digit values denotes in a base, most significant
    digit first. *)
Definition positional (base : Z) (indexes : list Z) : Z :=
  fold_left (fun acc index => acc * base + index) indexes 0.

(** One C library: [pow] correctly rounded at a negative integer exponent. *)
Definition correctly_rounded_pow (b e : Z) : float :=
  float_of_ratio 1 (b ^ (- e)).

(** The instances a caller can reach: built by the constructor, then
    changed by assignments to the public attributes. *)
Inductive reachable : Radix.t -> Prop :=
| reach_init digits kw self :
    Radix.init digits kw = Ok self -> reachable self
| reach_assign self a :
    reachable self -> reachable (Radix.assign self a).

Fixpoint nodupb (s : str) : bool :=
  match s with
  | [] => true
  | c :: t => negb (char_in c t) && nodupb t
  end.

(** A symbol that is one character, not a digit and not white space. *)
Definition symbol_ok (self : Radix.t) (sym : str) : bool :=
  match sym with
  | [c] => negb (char_in c (Radix.digits self)) && negb (isspace c)
  | _ => false
  end.

(** An alphabet on which positional notation is unambiguous: at least two
    distinct digits, none of them white space, and one-character separator
    and signs that are no digits, the two signs distinct. *)
Definition well_formed (self : Radix.t) : bool :=
  (Radix.base self =? len (Radix.digits self))
  && (2 <=? Radix.base self)
  && nodupb (Radix.digits self)
  && forallb (fun c => negb (isspace c)) (Radix.digits self)
  && symbol_ok self (Radix.sep self)
  && symbol_ok self (Radix.neg self)
  && symbol_ok self (Radix.pos self)
  && negb (startswith (Radix.neg self) (Radix.pos self)).

(** The named alphabets of the class, with no keyword argument. *)
Definition presets : list (result Radix.t) :=
  map (fun make => make Radix.no_kwargs)
    [Radix.bin; Radix.oct; Radix.hex; Radix.hex_lc; Radix.dozenal;
     Radix.dozenal_pitman; Radix.dozenal_pitman_ascii;
     Radix.dozenal_dwiggins; Radix.dozenal_kramer; Radix.base62;
     Radix.base57].

Definition is_well_formed (r : result Radix.t) : bool :=
  match r with
  | Ok self => well_formed self
  | _ => false
  end.

(** The pool of [by_base]: the 62 characters 0-9, A-Z, a-z. *)
Definition pool : str :=
  string_digits ++ string_ascii_uppercase ++ string_ascii_lowercase.

(** The default symbols, on some digits. *)
Definition with_defaults (digits : str) : Radix.t :=
  Radix.mk digits (len digits) (lit ".") (lit "-") (lit ",") (lit "+") (lit "e").

(** What the outcome of the loop of [decode] tells about the digit run. *)
Definition run_outcome (self : Radix.t) (number : str) (r : result num)
  : Prop :=
  match r with
  | Ok _ =>
      existsb (fun c => negb (char_in c (Radix.digits self))) number = false
  | Raise (ValueError _) =>
      existsb (fun c => negb (char_in c (Radix.digits self))) number = true
  | Raise OverflowError => True
  | _ => False
  end.

(** The sign in front of an encoded number, if any: [Some true] is the
    negative sign, [Some false] the positive one. *)
Definition sign_symbol (self : Radix.t) (sign : option bool) : str :=
  match sign with
  | None => []
  | Some true => Radix.neg self
  | Some false => Radix.pos self
  end.

Definition signed (sign : option bool) (v : Z) : Z :=
  match sign with
  | Some true => - v
  | _ => v
  end.

(** [ds] spells the digit values [indexes] in the alphabet. *)
Definition spells (self : Radix.t) (indexes : list Z) (ds : str) : Prop :=
  Forall2 (fun i d => 0 <= i /\ nth_error (Radix.digits self) (Z.to_nat i) = Some d)
    indexes ds.

(** The strings among the leaves of an object, from left to right. *)
Fixpoint str_leaves (obj : pyobj) : list str :=
  match obj with
  | ObjNum _ => []
  | ObjStr s => [s]
  | ObjTuple items => flat_map str_leaves items
  | ObjList items => flat_map str_leaves items
  end.

(** [decode] returns on the string. *)
Definition decodes (libm_pow : Z -> Z -> float) (self : Radix.t) (s : str)
  : Prop :=
  exists n, Radix.decode libm_pow self s = Ok n.

(** A float that is not negative: its sign bit is clear, or it is a NaN. *)
Definition sign_clear (x : float) : bool :=
  match x with
  | S754_zero s | S754_infinity s | S754_finite s _ _ => negb s
  | S754_nan => true
  end.

(** The sum the specification describes for [decode]: each digit value times
    the base to the power of its place, the places going down by one from
    digit to digit, the terms added from left to right in Python's
    arithmetic of [int] and [float]. *)
Fixpoint place_value_sum (libm_pow : Z -> Z -> float) (base : Z)
    (indexes : list Z) (exponent : Z) (sum : num) : result num :=
  match indexes with
  | [] => Ok sum
  | index :: rest =>
      power <- Radix.py_pow libm_pow base exponent ;;
      term <- Radix.py_mul (Int index) power ;;
      sum <- Radix.py_add sum term ;;
      place_value_sum libm_pow base rest (exponent - 1) sum
  end.

(** ** Construction *)

Lemma pool_length : List.length pool = 62%nat.
Proof. reflexivity. Qed.

(** C7 (as the code has it): [by_base] never fails.  For every integer [n]
    it returns the alphabet made of the first [min(|n|, 62)] characters of
    the pool 0-9, A-Z, a-z, in order; hence exactly [n] digits when
    [1 <= n <= 62], none when [n] is 0 and all 62 when [n] exceeds 62. *)
Theorem by_base_total (n : Z) (kw : Radix.kwargs) :
  exists self,
    Radix.by_base n kw = Ok self
    /\ Radix.digits self = firstn (Z.to_nat (Z.abs n)) pool
    /\ Radix.base self = Z.min (Z.abs n) 62.
Proof.
  eexists. split; [reflexivity|]. split.
  - cbn [Radix.digits Radix._digits Radix.set_digits Radix.slice_to].
    unfold pool, empty_str. now rewrite List.app_nil_r.
  - cbn [Radix.base Radix._base Radix.set_digits Radix.slice_to].
    unfold empty_str. rewrite !List.app_nil_r.
    fold pool. unfold len, Radix.slice_to.
    rewrite length_firstn, pool_length. lia.
Qed.

(** C7, counterexample: no [RangeError]; [by_base(63)] and [by_base(0)] return alphabets,
    of 62 digits and of no digit. *)
Lemma by_base_out_of_range_succeeds :
  Radix.by_base 63 Radix.no_kwargs = Ok (with_defaults pool)
  /\ Radix.by_base 0 Radix.no_kwargs = Ok (with_defaults []).
Proof. split; reflexivity. Qed.

(** C8 (as the code has it): the constructor never fails.  Whatever the
    digits and the keyword arguments, empty digits and coinciding symbols
    included, it returns an instance that holds the digits as given and
    each symbol as given or else its default, with the base set to the
    number of digits. *)
Theorem init_total (digits : str) (kw : Radix.kwargs) :
  exists self,
    Radix.init digits kw = Ok self
    /\ Radix.digits self = digits
    /\ Radix.base self = len digits
    /\ Radix.sep self = Radix.get_default (Radix.kw_sep kw) "."
    /\ Radix.neg self = Radix.get_default (Radix.kw_neg kw) "-"
    /\ Radix.tsep self = Radix.get_default (Radix.kw_tsep kw) ","
    /\ Radix.pos self = Radix.get_default (Radix.kw_pos kw) "+"
    /\ Radix.exp self = Radix.get_default (Radix.kw_exp kw) "e".
Proof.
  unfold Radix.init. eexists. split; [reflexivity|].
  cbn [Radix.digits Radix.base Radix._digits Radix._base Radix.set_digits
       Radix.sep Radix.neg Radix.tsep Radix.pos Radix.exp].
  repeat split.
Qed.

(** C8, counterexample: no [ConfigError]; the constructor accepts an empty digit sequence,
    and a separator that is also a digit. *)
Lemma init_accepts_empty_and_colliding :
  Radix.init [] Radix.no_kwargs = Ok (with_defaults [])
  /\ Radix.init (lit "0123")
       (Radix.mk_kwargs (Some (lit "0")) None None None None)
     = Ok (Radix.mk (lit "0123") 4 (lit "0") (lit "-") (lit ",") (lit "+")
             (lit "e")).
Proof. split; reflexivity. Qed.

(** C9: on every instance a caller can reach, by the constructor and any
    sequence of assignments to [digits] and to the other attributes, the
    base is the number of digits. *)
Theorem base_is_len_digits (self : Radix.t) :
  reachable self -> Radix.base self = len (Radix.digits self).
Proof.
  induction 1 as [digits kw self Hinit | self a _ IH].
  - unfold Radix.init in Hinit. injection Hinit as <-. reflexivity.
  - destruct a; cbn; try exact IH. reflexivity.
Qed.

Lemma base_is_len_digits_witness :
  reachable (Radix.assign (with_defaults (lit "0123456789"))
               (Radix.AssignDigits (lit "01")))
  /\ Radix.base (Radix.assign (with_defaults (lit "0123456789"))
                   (Radix.AssignDigits (lit "01"))) = 2.
Proof.
  assert (H : reachable (Radix.assign (with_defaults (lit "0123456789"))
                           (Radix.AssignDigits (lit "01")))).
  { apply reach_assign.
    apply (reach_init (lit "0123456789") Radix.no_kwargs). reflexivity. }
  split; [exact H|].
  rewrite (base_is_len_digits _ H). reflexivity.
Defined.

(** ** Decoding *)

Section DecodeFacts.

Variable libm_pow : Z -> Z -> float.
Variable self : Radix.t.

Lemma dropwhile_all (p : char -> bool) (s : str) :
  forallb p s = true -> dropwhile p s = [].
Proof.
  induction s as [|c t IH]; cbn; [reflexivity|].
  intros [-> Ht]%andb_prop. now apply IH.
Qed.

Lemma strip_blank (s : str) : forallb isspace s = true -> strip s = [].
Proof. intros H. unfold strip. now rewrite (dropwhile_all _ _ H). Qed.

Lemma strip_single (c : char) : strip [c] = if isspace c then [] else [c].
Proof. unfold strip. cbn. destruct (isspace c) eqn:E; cbn; now rewrite ?E. Qed.

Lemma startswith_refl (s : str) : startswith s s = true.
Proof.
  induction s as [|c t IH]; cbn; [reflexivity|].
  unfold char_eqb. now rewrite N.eqb_refl.
Qed.

(** Nothing left after the sign: the result is the [int] 0, whether or not
    it is then multiplied by -1. *)
Lemma decode_empty_run (s : str) :
  snd (Radix.unsigned_part self s) = [] ->
  Radix.decode libm_pow self s = Ok (Int 0).
Proof.
  unfold Radix.decode. destruct (Radix.unsigned_part self s) as [b number].
  cbn [snd]. intros ->. unfold Radix.digit_run.
  destruct (str_index (Radix.sep self) []) as [i|].
  - replace (firstn _ [] ++ skipn _ []) with (@nil char)
      by now rewrite firstn_nil, skipn_nil.
    cbn. now destruct b.
  - cbn. now destruct b.
Qed.

End DecodeFacts.

(** C10: [decode] returns the [int] 0 on the empty string, on a string of
    white space only, and on a string that is one sign symbol. *)
Theorem decode_blank_or_sign (libm_pow : Z -> Z -> float) (self : Radix.t)
    (s : str) :
  forallb isspace s = true
  \/ (exists c, s = [c] /\ (Radix.neg self = [c] \/ Radix.pos self = [c])) ->
  Radix.decode libm_pow self s = Ok (Int 0).
Proof.
  intros H. apply decode_empty_run. unfold Radix.unsigned_part.
  destruct H as [H | (c & -> & H)].
  - rewrite (strip_blank _ H). now destruct (_ || _).
  - rewrite strip_single. destruct (isspace c).
    + now destruct (_ || _).
    + assert (E : startswith (Radix.neg self) [c]
                  || startswith (Radix.pos self) [c] = true).
      { destruct H as [-> | ->]; rewrite startswith_refl;
          [reflexivity | apply orb_true_r]. }
      now rewrite E.
Qed.

Lemma decode_blank_or_sign_witness :
  Radix.decode correctly_rounded_pow (with_defaults (lit "0123456789"))
    (lit "-") = Ok (Int 0).
Proof.
  apply (decode_blank_or_sign correctly_rounded_pow
           (with_defaults (lit "0123456789")) (lit "-")).
  right. exists 45%N. split; [reflexivity | left; reflexivity].
Defined.

Section InvalidDigit.

Variable libm_pow : Z -> Z -> float.
Variable self : Radix.t.

Lemma index_of_none (c : char) (s : str) :
  index_of c s = None <-> char_in c s = false.
Proof.
  induction s as [|d t IH]; cbn; [tauto|].
  destruct (char_eqb c d); cbn; [split; discriminate|].
  rewrite <- IH. destruct (index_of c t); cbn; split; congruence.
Qed.

Lemma float_of_int_cases (z : Z) :
  (exists x, float_of_int z = Ok x) \/ float_of_int z = Raise OverflowError.
Proof.
  unfold float_of_int.
  destruct (binary_normalize prec emax z 0 false); eauto.
Qed.

Lemma py_mul_cases (a b : num) :
  (exists c, Radix.py_mul a b = Ok c)
  \/ Radix.py_mul a b = Raise OverflowError.
Proof.
  destruct a as [x|x], b as [y|y]; cbn; eauto.
  - destruct (float_of_int_cases x) as [[f ->] | ->]; cbn; eauto.
  - destruct (float_of_int_cases y) as [[f ->] | ->]; cbn; eauto.
Qed.

Lemma py_add_cases (a b : num) :
  (exists c, Radix.py_add a b = Ok c)
  \/ Radix.py_add a b = Raise OverflowError.
Proof.
  destruct a as [x|x], b as [y|y]; cbn; eauto.
  - destruct (float_of_int_cases x) as [[f ->] | ->]; cbn; eauto.
  - destruct (float_of_int_cases y) as [[f ->] | ->]; cbn; eauto.
Qed.

Lemma negate_ok (a : num) : exists b, Radix.py_mul a (Int (-1)) = Ok b.
Proof. destruct a; cbn; eauto. Qed.

Lemma decode_loop_outcome (number : str) :
  Radix.base self = len (Radix.digits self) ->
  forall output exponent,
    run_outcome self number
      (Radix.decode_loop libm_pow self number output exponent).
Proof.
  intros Hbase.
  induction number as [|digit rest IH]; intros output exponent;
    cbn [Radix.decode_loop].
  - reflexivity.
  - destruct (index_of digit (Radix.digits self)) as [i|] eqn:Ei.
    + assert (Hin : char_in digit (Radix.digits self) = true).
      { destruct (char_in digit (Radix.digits self)) eqn:E; [reflexivity|].
        apply index_of_none in E. congruence. }
      assert (Hpow : exists p, Radix.py_pow libm_pow (Radix.base self) exponent
                               = Ok p).
      { unfold Radix.py_pow. destruct (0 <=? exponent); eauto.
        destruct (Radix.base self =? 0) eqn:E0; eauto.
        apply Z.eqb_eq in E0. rewrite Hbase in E0.
        destruct (Radix.digits self); [discriminate Hin | discriminate E0]. }
      destruct Hpow as [p ->]. cbn [bind].
      destruct (py_mul_cases (Int (Z.of_nat i)) p) as [[term ->] | ->];
        [|exact I].
      cbn [bind].
      destruct (py_add_cases output term) as [[output' ->] | ->]; [|exact I].
      cbn [bind]. specialize (IH output' (exponent - 1)).
      destruct (Radix.decode_loop _ _ _ _ _) as [v|[]|]; cbn in IH |- *;
        rewrite ?Hin; cbn; assumption.
    + apply index_of_none in Ei. cbn. now rewrite Ei.
Qed.

End InvalidDigit.

(** C5 (as the code has it): on an instance whose base is its number of
    digits, and unless the integer part is too large for a [float]
    ([OverflowError]), [decode] raises [ValueError] if and only if the
    string left after stripping white space, dropping a leading sign and
    taking out the first occurrence of the separator holds a character that
    is not a digit.  A second separator is such a character. *)
Theorem decode_ValueError_iff (libm_pow : Z -> Z -> float) (self : Radix.t)
    (s : str) :
  Radix.base self = len (Radix.digits self) ->
  Radix.decode libm_pow self s <> Raise OverflowError ->
  ((exists msg, Radix.decode libm_pow self s = Raise (ValueError msg))
   <->
   existsb (fun c => negb (char_in c (Radix.digits self)))
     (snd (Radix.digit_run self (snd (Radix.unsigned_part self s)))) = true).
Proof.
  intros Hbase. unfold Radix.decode.
  destruct (Radix.unsigned_part self s) as [is_negative number]. cbn [snd].
  destruct (Radix.digit_run self number) as [exponent run]. cbn [snd].
  pose proof (decode_loop_outcome libm_pow self run Hbase (Int 0) exponent)
    as H.
  destruct (Radix.decode_loop libm_pow self run (Int 0) exponent)
    as [v|[]|]; cbn in H |- *; try contradiction.
  - intros _. rewrite H. split; [|discriminate].
    intros [msg Hm]. destruct is_negative; [|discriminate].
    destruct (negate_ok v) as [b Hb]. congruence.
  - intros _. split; eauto.
Qed.

(** C5 at the input of the specification: ["12G"] is refused under the
    hexadecimal alphabet. *)
Lemma decode_ValueError_iff_witness :
  exists msg,
    Radix.decode correctly_rounded_pow
      (with_defaults (lit "0123456789ABCDEF")) (lit "12G")
    = Raise (ValueError msg).
Proof.
  apply (decode_ValueError_iff correctly_rounded_pow
           (with_defaults (lit "0123456789ABCDEF")) (lit "12G")).
  - reflexivity.
  - vm_compute. discriminate.
  - vm_compute. reflexivity.
Defined.

(** C5, counterexample: every character of ["1.2.3"] is a decimal digit
    or the separator, and [decode] raises [ValueError] on it, for the
    second separator. *)
Lemma decode_second_separator_refused :
  forallb (fun c => char_in c (lit "0123456789") || char_in c (lit "."))
    (lit "1.2.3") = true
  /\ (r <- Radix.by_base 10 Radix.no_kwargs ;;
      Radix.decode correctly_rounded_pow r (lit "1.2.3"))
     = Raise (Radix.invalid_digit 46%N).
Proof. split; vm_compute; reflexivity. Qed.

(** ** Integer strings *)

Lemma positional_acc (base : Z) (indexes : list Z) (acc : Z) :
  fold_left (fun a i => a * base + i) indexes acc
  = acc * base ^ len indexes + positional base indexes.
Proof.
  unfold positional, len. revert acc.
  induction indexes as [|i rest IH]; intros acc.
  - cbn. lia.
  - cbn [fold_left List.length]. rewrite IH, (IH (0 * base + i)).
    rewrite Nat2Z.inj_succ, Z.pow_succ_r by lia. ring.
Qed.

Lemma positional_cons (base i : Z) (rest : list Z) :
  positional base (i :: rest) = i * base ^ len rest + positional base rest.
Proof.
  unfold positional at 1. cbn [fold_left]. rewrite positional_acc. ring.
Qed.

Lemma positional_snoc (base i : Z) (front : list Z) :
  positional base (front ++ [i]) = positional base front * base + i.
Proof. unfold positional. now rewrite fold_left_app. Qed.

Lemma char_eqb_eq (a b : char) : char_eqb a b = true <-> a = b.
Proof. apply N.eqb_eq. Qed.

Lemma char_eqb_refl (c : char) : char_eqb c c = true.
Proof. apply N.eqb_refl. Qed.

Lemma char_in_In (c : char) (s : str) : char_in c s = true <-> In c s.
Proof.
  unfold char_in. rewrite existsb_exists. split.
  - intros (d & Hd & E). apply char_eqb_eq in E. now subst.
  - intros H. exists c. split; [assumption | now apply char_eqb_eq].
Qed.

Lemma index_of_nth (s : str) (n : nat) (d : char) :
  nodupb s = true -> nth_error s n = Some d -> index_of d s = Some n.
Proof.
  revert n. induction s as [|c t IH]; intros n Hnd Hn.
  - now destruct n.
  - cbn in Hnd. apply andb_prop in Hnd as [Hc Ht].
    destruct n as [|n]; cbn in Hn |- *.
    + injection Hn as ->. unfold char_eqb. now rewrite N.eqb_refl.
    + destruct (char_eqb d c) eqn:E.
      * apply char_eqb_eq in E. subst c.
        apply nth_error_In, char_in_In in Hn. rewrite Hn in Hc. discriminate.
      * now rewrite (IH n Ht Hn).
Qed.

Lemma strip_no_space (s : str) :
  forallb (fun c => negb (isspace c)) s = true -> strip s = s.
Proof.
  intros H.
  assert (D : forall t, forallb (fun c => negb (isspace c)) t = true ->
                        dropwhile isspace t = t).
  { intros [|c t]; cbn; [reflexivity|].
    intros [Hc _]%andb_prop. now destruct (isspace c). }
  unfold strip. rewrite (D s H), D, rev_involutive; [reflexivity|].
  rewrite forallb_forall in *. intros c Hc. apply H. now apply in_rev.
Qed.

Lemma str_index_absent (c : char) (s : str) :
  char_in c s = false -> str_index [c] s = None.
Proof.
  induction s as [|d t IH]; cbn; [reflexivity|].
  intros [Hd Ht]%orb_false_elim. rewrite Hd. cbn. now rewrite IH.
Qed.

Lemma str_index_first (c : char) (front back : str) :
  char_in c front = false ->
  str_index [c] (front ++ c :: back) = Some (List.length front).
Proof.
  induction front as [|d t IH]; cbn.
  - intros _. unfold char_eqb. now rewrite N.eqb_refl.
  - intros [Hd Ht]%orb_false_elim. rewrite Hd. cbn. now rewrite IH.
Qed.

Section IntegerStrings.

Variable libm_pow : Z -> Z -> float.
Variable self : Radix.t.
Hypothesis Hwf : well_formed self = true.

Lemma wf_base : Radix.base self = len (Radix.digits self).
Proof.
  unfold well_formed in Hwf. repeat apply andb_prop in Hwf as [Hwf ?].
  now apply Z.eqb_eq.
Qed.

Lemma wf_base_ge_2 : 2 <= Radix.base self.
Proof.
  unfold well_formed in Hwf. repeat apply andb_prop in Hwf as [Hwf ?].
  now apply Z.leb_le.
Qed.

Lemma wf_nodup : nodupb (Radix.digits self) = true.
Proof.
  unfold well_formed in Hwf. now repeat apply andb_prop in Hwf as [Hwf ?].
Qed.

Lemma wf_digits_no_space :
  forallb (fun c => negb (isspace c)) (Radix.digits self) = true.
Proof.
  unfold well_formed in Hwf. now repeat apply andb_prop in Hwf as [Hwf ?].
Qed.

Lemma symbol_ok_inv (sym : str) :
  symbol_ok self sym = true ->
  exists c, sym = [c] /\ char_in c (Radix.digits self) = false
            /\ isspace c = false.
Proof.
  destruct sym as [|c [|]]; cbn; try discriminate.
  intros [H1 H2]%andb_prop. exists c.
  apply negb_true_iff in H1, H2. auto.
Qed.

Lemma wf_symbols :
  exists cs cn cp,
    Radix.sep self = [cs] /\ Radix.neg self = [cn] /\ Radix.pos self = [cp]
    /\ char_in cs (Radix.digits self) = false /\ isspace cs = false
    /\ char_in cn (Radix.digits self) = false /\ isspace cn = false
    /\ char_in cp (Radix.digits self) = false /\ isspace cp = false
    /\ char_eqb cn cp = false.
Proof.
  unfold well_formed in Hwf. repeat apply andb_prop in Hwf as [Hwf ?].
  destruct (symbol_ok_inv _ H2) as (cs & Es & ? & ?).
  destruct (symbol_ok_inv _ H1) as (cn & En & ? & ?).
  destruct (symbol_ok_inv _ H0) as (cp & Ep & ? & ?).
  exists cs, cn, cp. repeat split; try assumption.
  rewrite En, Ep in H. cbn in H. rewrite andb_true_r in H.
  now apply negb_true_iff.
Qed.

Lemma spells_digits (indexes : list Z) (ds : str) :
  spells self indexes ds ->
  forallb (fun c => char_in c (Radix.digits self)) ds = true.
Proof.
  induction 1 as [|i d indexes ds [_ Hd] _ IH]; cbn; [reflexivity|].
  rewrite IH, andb_true_r. now apply nth_error_In, char_in_In in Hd.
Qed.

Lemma digits_no_space (ds : str) :
  forallb (fun c => char_in c (Radix.digits self)) ds = true ->
  forallb (fun c => negb (isspace c)) ds = true.
Proof.
  pose proof wf_digits_no_space as Hns.
  rewrite !forallb_forall in *. intros H c Hc.
  apply Hns. now apply char_in_In, H.
Qed.

Lemma decode_loop_spells (indexes : list Z) (ds : str) :
  spells self indexes ds ->
  forall out,
    Radix.decode_loop libm_pow self ds (Int out) (len ds - 1)
    = Ok (Int (out + positional (Radix.base self) indexes)).
Proof.
  induction 1 as [|i d indexes ds [Hi Hd] Hrest IH]; intros out.
  - cbn. f_equal. f_equal. unfold positional. cbn. lia.
  - cbn [Radix.decode_loop].
    rewrite (index_of_nth _ _ _ wf_nodup Hd).
    assert (El : len (d :: ds) - 1 = len ds)
      by (unfold len; cbn [List.length]; lia).
    rewrite El. unfold Radix.py_pow.
    assert (Hl : (0 <=? len ds) = true) by (apply Z.leb_le; unfold len; lia).
    rewrite Hl. cbn [bind Radix.py_mul Radix.py_add].
    rewrite IH, positional_cons. f_equal. f_equal.
    rewrite Z2Nat.id by assumption.
    assert (E : len indexes = len ds)
      by (unfold len; now rewrite (Forall2_length Hrest)).
    rewrite E. ring.
Qed.

(** The sign is recognised and dropped in front of a digit. *)
Lemma unsigned_part_signed (sign : option bool) (d : char) (rest : str) :
  char_in d (Radix.digits self) = true ->
  forallb (fun c => negb (isspace c)) (d :: rest) = true ->
  Radix.unsigned_part self (sign_symbol self sign ++ d :: rest)
  = (match sign with Some true => true | _ => false end, d :: rest).
Proof.
  intros Hd Hns.
  destruct wf_symbols
    as (cs & cn & cp & Es & En & Ep & Hcs & Hss & Hcn & Hsn & Hcp & Hsp & Hnp).
  assert (Hnd : char_eqb cn d = false).
  { destruct (char_eqb cn d) eqn:E; [|reflexivity].
    apply char_eqb_eq in E. subst d. congruence. }
  assert (Hpd : char_eqb cp d = false).
  { destruct (char_eqb cp d) eqn:E; [|reflexivity].
    apply char_eqb_eq in E. subst d. congruence. }
  unfold Radix.unsigned_part. rewrite strip_no_space.
  - rewrite En, Ep. destruct sign as [[|]|]; cbn [sign_symbol].
    + rewrite En. cbn. now rewrite !char_eqb_refl.
    + rewrite Ep. cbn. now rewrite Hnp, !char_eqb_refl.
    + cbn. now rewrite Hnd, Hpd.
  - rewrite forallb_app, Hns, andb_true_r.
    destruct sign as [[|]|]; cbn [sign_symbol]; rewrite ?En, ?Ep; cbn;
      now rewrite ?Hsn, ?Hsp.
Qed.

Lemma char_in_false_of_digits (c : char) (ds : str) :
  char_in c (Radix.digits self) = false ->
  forallb (fun d => char_in d (Radix.digits self)) ds = true ->
  char_in c ds = false.
Proof.
  intros Hc Hds. destruct (char_in c ds) eqn:E; [|reflexivity].
  apply char_in_In in E. rewrite forallb_forall in Hds.
  apply Hds in E. congruence.
Qed.

(** [decode] on a sign and a non-empty run of digits. *)
Lemma decode_integer_string (sign : option bool) (indexes : list Z)
    (ds : str) :
  spells self indexes ds -> indexes <> [] ->
  Radix.decode libm_pow self (sign_symbol self sign ++ ds)
  = Ok (Int (signed sign (positional (Radix.base self) indexes))).
Proof.
  intros Hsp Hne.
  pose proof (spells_digits _ _ Hsp) as Hds.
  pose proof (digits_no_space _ Hds) as Hns.
  pose proof (decode_loop_spells _ _ Hsp 0) as Hloop.
  destruct wf_symbols as (cs & _ & _ & Es & _ & _ & Hcs & _).
  destruct Hsp as [|i d indexes ds [_ Hd] Hrest]; [contradiction|].
  assert (Hdin : char_in d (Radix.digits self) = true)
    by now apply nth_error_In, char_in_In in Hd.
  unfold Radix.decode.
  rewrite (unsigned_part_signed sign d ds Hdin Hns).
  unfold Radix.digit_run.
  rewrite Es, (str_index_absent cs (d :: ds)
                 (char_in_false_of_digits _ _ Hcs Hds)).
  rewrite Hloop. cbn [bind].
  destruct sign as [[|]|]; cbn; f_equal; f_equal; lia.
Qed.

(** [decode] on a sign, digits, the separator and digits never refuses a
    character. *)
Lemma decode_fraction_string (sign : option bool) (indexes : list Z)
    (ds fracs : str) (msg : str) :
  spells self indexes ds -> indexes <> [] ->
  forallb (fun c => char_in c (Radix.digits self)) fracs = true ->
  Radix.decode libm_pow self
    (sign_symbol self sign ++ ds ++ Radix.sep self ++ fracs)
  <> Raise (ValueError msg).
Proof.
  intros Hsp Hne Hfr.
  pose proof (spells_digits _ _ Hsp) as Hds.
  destruct wf_symbols as (cs & _ & _ & Es & _ & _ & Hcs & Hss & _).
  destruct Hsp as [|i d indexes ds [_ Hd] Hrest]; [contradiction|].
  assert (Hdin : char_in d (Radix.digits self) = true)
    by now apply nth_error_In, char_in_In in Hd.
  rewrite Es. cbn [app].
  assert (Hns : forallb (fun c => negb (isspace c))
                  (d :: ds ++ cs :: fracs) = true).
  { change (d :: ds ++ cs :: fracs) with ((d :: ds) ++ cs :: fracs).
    rewrite forallb_app, (digits_no_space _ Hds). cbn.
    now rewrite Hss, (digits_no_space _ Hfr). }
  unfold Radix.decode.
  rewrite (unsigned_part_signed sign d (ds ++ cs :: fracs) Hdin Hns).
  unfold Radix.digit_run. rewrite Es.
  change (d :: ds ++ cs :: fracs) with ((d :: ds) ++ cs :: fracs).
  rewrite (str_index_first cs (d :: ds) fracs
             (char_in_false_of_digits _ _ Hcs Hds)).
  replace (Z.to_nat (Z.of_nat (List.length (d :: ds)) - 1 + 1))
    with (List.length (d :: ds)) by lia.
  replace (Z.to_nat (Z.of_nat (List.length (d :: ds)) - 1 + 2))
    with (List.length (d :: ds) + 1)%nat by lia.
  rewrite firstn_app, firstn_all, Nat.sub_diag, firstn_O, List.app_nil_r.
  rewrite skipn_app, skipn_all2 by (cbn; lia).
  replace (List.length (d :: ds) + 1 - List.length (d :: ds))%nat
    with 1%nat by lia.
  cbn [skipn app].
  pose proof (decode_loop_outcome libm_pow self ((d :: ds) ++ fracs) wf_base
                (Int 0) (Z.of_nat (List.length (d :: ds)) - 1)) as Hout.
  assert (Hall : existsb (fun c => negb (char_in c (Radix.digits self)))
                   ((d :: ds) ++ fracs) = false).
  { rewrite existsb_app. apply orb_false_intro.
    - clear -Hds. induction (d :: ds) as [|c t IH]; cbn in *; [reflexivity|].
      apply andb_prop in Hds as [-> Ht]. now rewrite IH.
    - clear -Hfr. induction fracs as [|c t IH]; cbn in *; [reflexivity|].
      apply andb_prop in Hfr as [-> Ht]. now rewrite IH. }
  destruct (Radix.decode_loop _ _ _ _ _) as [v|[]|];
    cbn [run_outcome bind] in Hout |- *;
    try discriminate; try contradiction; try congruence.
  destruct (negate_ok v) as [b Hb].
  destruct (match sign with Some true => true | _ => false end); congruence.
Qed.

End IntegerStrings.

Lemma decode_loop_app (libm_pow : Z -> Z -> float) (self : Radix.t)
    (a b : str) :
  forall output exponent,
    Radix.decode_loop libm_pow self (a ++ b) output exponent
    = (output' <- Radix.decode_loop libm_pow self a output exponent ;;
       Radix.decode_loop libm_pow self b output' (exponent - len a)).
Proof.
  induction a as [|c a IH]; intros output exponent.
  - cbn. f_equal. unfold len. cbn. lia.
  - cbn [app Radix.decode_loop].
    destruct (index_of c (Radix.digits self)); [|reflexivity].
    destruct (Radix.py_pow libm_pow (Radix.base self) exponent);
      cbn [bind]; try reflexivity.
    destruct (Radix.py_mul _ _); cbn [bind]; try reflexivity.
    destruct (Radix.py_add _ _); cbn [bind]; try reflexivity.
    rewrite IH. f_equal.
    replace (exponent - 1 - len a) with (exponent - len (c :: a))
      by (unfold len; cbn [List.length]; lia).
    reflexivity.
Qed.

(** On a well-formed alphabet, what [decode] does on a sign, digits, the
    separator and further characters: the loop runs over the digits and
    those characters, from the exponent of the first digit. *)
Lemma decode_with_separator (libm_pow : Z -> Z -> float) (self : Radix.t)
    (sign : option bool) (indexes : list Z) (ds tail : str) :
  well_formed self = true ->
  spells self indexes ds -> indexes <> [] ->
  forallb (fun c => negb (isspace c)) tail = true ->
  Radix.decode libm_pow self (sign_symbol self sign ++ ds ++ Radix.sep self ++ tail)
  = (output <- Radix.decode_loop libm_pow self (ds ++ tail) (Int 0)
                 (len ds - 1) ;;
     if match sign with Some true => true | _ => false end
     then Radix.py_mul output (Int (-1)) else Ok output).
Proof.
  intros Hwf Hsp Hne Htail.
  pose proof (spells_digits self indexes ds Hsp) as Hds.
  destruct (wf_symbols self Hwf) as (cs & _ & _ & Es & _ & _ & Hcs & Hss & _).
  destruct Hsp as [|i d indexes ds [_ Hd] Hrest]; [contradiction|].
  assert (Hdin : char_in d (Radix.digits self) = true)
    by now apply nth_error_In, char_in_In in Hd.
  rewrite Es. cbn [app].
  assert (Hns : forallb (fun c => negb (isspace c))
                  (d :: ds ++ cs :: tail) = true).
  { change (d :: ds ++ cs :: tail) with ((d :: ds) ++ cs :: tail).
    rewrite forallb_app, (digits_no_space self Hwf _ Hds). cbn.
    now rewrite Hss, Htail. }
  unfold Radix.decode.
  rewrite (unsigned_part_signed self Hwf sign d (ds ++ cs :: tail) Hdin Hns).
  unfold Radix.digit_run. rewrite Es.
  change (d :: ds ++ cs :: tail) with ((d :: ds) ++ cs :: tail).
  rewrite (str_index_first cs (d :: ds) tail
             (char_in_false_of_digits self cs _ Hcs Hds)).
  replace (Z.to_nat (Z.of_nat (List.length (d :: ds)) - 1 + 1))
    with (List.length (d :: ds)) by lia.
  replace (Z.to_nat (Z.of_nat (List.length (d :: ds)) - 1 + 2))
    with (List.length (d :: ds) + 1)%nat by lia.
  rewrite firstn_app, firstn_all, Nat.sub_diag, firstn_O, List.app_nil_r.
  rewrite skipn_app, skipn_all2 by (cbn; lia).
  replace (List.length (d :: ds) + 1 - List.length (d :: ds))%nat
    with 1%nat by lia.
  reflexivity.
Qed.

(** On the symbols of digit values the loop of [decode] computes the
    place-value sum of those values. *)
Lemma decode_loop_place_value (libm_pow : Z -> Z -> float) (self : Radix.t)
    (indexes : list Z) (ds : str) :
  well_formed self = true ->
  spells self indexes ds ->
  forall output exponent,
    Radix.decode_loop libm_pow self ds output exponent
    = place_value_sum libm_pow (Radix.base self) indexes exponent output.
Proof.
  intros Hwf. induction 1 as [|i d indexes ds [Hi Hd] _ IH];
    intros output exponent; [reflexivity|].
  cbn [Radix.decode_loop place_value_sum].
  rewrite (index_of_nth _ _ _ (wf_nodup self Hwf) Hd).
  rewrite Z2Nat.id by assumption.
  destruct (Radix.py_pow libm_pow (Radix.base self) exponent); cbn [bind];
    try reflexivity.
  destruct (Radix.py_mul _ _); cbn [bind]; try reflexivity.
  destruct (Radix.py_add _ _); cbn [bind]; try reflexivity.
  apply IH.
Qed.

(** The place-value sum returns, unless a conversion to [float] overflows. *)
Lemma place_value_sum_outcome (libm_pow : Z -> Z -> float) (base : Z)
    (indexes : list Z) :
  base <> 0 ->
  forall exponent sum,
    (exists v, place_value_sum libm_pow base indexes exponent sum = Ok v)
    \/ place_value_sum libm_pow base indexes exponent sum
       = Raise OverflowError.
Proof.
  intros Hbase. induction indexes as [|i indexes IH]; intros exponent sum;
    cbn [place_value_sum]; [eauto|].
  assert (Hpow : exists p, Radix.py_pow libm_pow base exponent = Ok p).
  { unfold Radix.py_pow. destruct (0 <=? exponent); eauto.
    apply Z.eqb_neq in Hbase. rewrite Hbase. eauto. }
  destruct Hpow as [p ->]. cbn [bind].
  destruct (py_mul_cases (Int i) p) as [[term ->] | ->]; cbn [bind];
    [|now right].
  destruct (py_add_cases sum term) as [[sum' ->] | ->]; cbn [bind];
    [|now right].
  apply IH.
Qed.

(** C6 (as the code has it): on a well-formed alphabet [decode] accepts the
    strings of the grammar that have neither group separators nor an
    exponent part.  A sign and a non-empty run of digits return the integer
    they denote.  With the separator and further digits after them,
    [decode] returns that integer plus, for each further digit in turn, its
    value times the base to the power -1, -2, and so on, added in Python's
    arithmetic and negated after a negative sign: the only way it can fail
    is an [OverflowError] from a conversion to [float], and it never
    refuses a character.  Group separators are not part of what [decode]
    reads. *)
Theorem decode_accepts_plain_notation (libm_pow : Z -> Z -> float)
    (self : Radix.t) (sign : option bool) (indexes fraction_indexes : list Z)
    (ds fracs : str) :
  well_formed self = true ->
  spells self indexes ds -> indexes <> [] ->
  spells self fraction_indexes fracs ->
  Radix.decode libm_pow self (sign_symbol self sign ++ ds)
  = Ok (Int (signed sign (positional (Radix.base self) indexes)))
  /\ Radix.decode libm_pow self
       (sign_symbol self sign ++ ds ++ Radix.sep self ++ fracs)
     = (sum <- place_value_sum libm_pow (Radix.base self) fraction_indexes
                 (-1) (Int (positional (Radix.base self) indexes)) ;;
        if match sign with Some true => true | _ => false end
        then Radix.py_mul sum (Int (-1)) else Ok sum)
  /\ ((exists v,
         Radix.decode libm_pow self
           (sign_symbol self sign ++ ds ++ Radix.sep self ++ fracs) = Ok v)
      \/ Radix.decode libm_pow self
           (sign_symbol self sign ++ ds ++ Radix.sep self ++ fracs)
         = Raise OverflowError)
  /\ forall msg,
       Radix.decode libm_pow self
         (sign_symbol self sign ++ ds ++ Radix.sep self ++ fracs)
       <> Raise (ValueError msg).
Proof.
  intros Hwf Hsp Hne Hfr.
  assert (Heq : Radix.decode libm_pow self
                  (sign_symbol self sign ++ ds ++ Radix.sep self ++ fracs)
                = (sum <- place_value_sum libm_pow (Radix.base self)
                            fraction_indexes (-1)
                            (Int (positional (Radix.base self) indexes)) ;;
                   if match sign with Some true => true | _ => false end
                   then Radix.py_mul sum (Int (-1)) else Ok sum)).
  { rewrite (decode_with_separator libm_pow self sign indexes ds fracs Hwf
               Hsp Hne
               (digits_no_space self Hwf _ (spells_digits self _ _ Hfr))).
    rewrite decode_loop_app, (decode_loop_spells libm_pow self Hwf _ _ Hsp).
    cbn [bind]. rewrite Z.add_0_l.
    rewrite (decode_loop_place_value libm_pow self _ _ Hwf Hfr).
    now replace (len ds - 1 - len ds) with (-1) by lia. }
  assert (Hout : (exists v,
                    Radix.decode libm_pow self
                      (sign_symbol self sign ++ ds ++ Radix.sep self ++ fracs)
                    = Ok v)
                 \/ Radix.decode libm_pow self
                      (sign_symbol self sign ++ ds ++ Radix.sep self ++ fracs)
                    = Raise OverflowError).
  { rewrite Heq.
    pose proof (wf_base_ge_2 self Hwf) as Hbase.
    destruct (place_value_sum_outcome libm_pow (Radix.base self)
                fraction_indexes ltac:(lia) (-1)
                (Int (positional (Radix.base self) indexes)))
      as [[v ->] | ->]; cbn [bind]; [|now right].
    left. destruct (negate_ok v) as [w Hw].
    destruct (match sign with Some true => true | _ => false end); eauto. }
  repeat split.
  - exact (decode_integer_string libm_pow self Hwf sign indexes ds Hsp Hne).
  - exact Heq.
  - exact Hout.
  - intros msg. destruct Hout as [[v ->] | ->]; discriminate.
Qed.

Lemma decode_accepts_plain_notation_witness :
  Radix.decode correctly_rounded_pow (with_defaults (lit "0123456789"))
    (lit "-1000000") = Ok (Int (- 1000000))
  /\ Radix.decode correctly_rounded_pow (with_defaults (lit "0123456789"))
       (lit "-1000000.25")
     = (sum <- place_value_sum correctly_rounded_pow 10 [2; 5] (-1)
                 (Int 1000000) ;;
        Radix.py_mul sum (Int (-1)))
  /\ ((exists v,
         Radix.decode correctly_rounded_pow
           (with_defaults (lit "0123456789")) (lit "-1000000.25") = Ok v)
      \/ Radix.decode correctly_rounded_pow
           (with_defaults (lit "0123456789")) (lit "-1000000.25")
         = Raise OverflowError)
  /\ forall msg,
       Radix.decode correctly_rounded_pow (with_defaults (lit "0123456789"))
         (lit "-1000000.25") <> Raise (ValueError msg).
Proof.
  apply (decode_accepts_plain_notation correctly_rounded_pow
           (with_defaults (lit "0123456789")) (Some true)
           [1; 0; 0; 0; 0; 0; 0] [2; 5] (lit "1000000") (lit "25")).
  - reflexivity.
  - repeat (apply Forall2_cons; [split; [lia | reflexivity]|]).
    apply Forall2_nil.
  - discriminate.
  - repeat (apply Forall2_cons; [split; [lia | reflexivity]|]).
    apply Forall2_nil.
Defined.

(** The value of the witness: ["-1000000.25"] decodes to the float
    -1000000.25. *)
Example decode_minus_1000000_25 :
  Radix.decode correctly_rounded_pow (with_defaults (lit "0123456789"))
    (lit "-1000000.25")
  = Ok (Float (float_of_ratio (-100000025) 100)).
Proof. vm_compute. reflexivity. Qed.

(** C6, counterexample: ["1,000,000"] is refused under the decimal
    alphabet with the default group separator, for its first comma; so is
    the exponent marker of ["1e5"]; and a string of the plain grammar whose
    integer part, 1 followed by 400 zeros, is beyond the floats raises
    [OverflowError] at its first fraction digit. *)
Lemma decode_group_separator_refused :
  (r <- Radix.by_base 10 Radix.no_kwargs ;;
   Radix.decode correctly_rounded_pow r (lit "1,000,000"))
  = Raise (Radix.invalid_digit 44%N)
  /\ (r <- Radix.by_base 10 Radix.no_kwargs ;;
      Radix.decode correctly_rounded_pow r (lit "1e5"))
     = Raise (Radix.invalid_digit 101%N)
  /\ (r <- Radix.by_base 10 Radix.no_kwargs ;;
      Radix.decode correctly_rounded_pow r
        (lit "1" ++ repeat 48%N 400 ++ lit ".5"))
     = Raise OverflowError.
Proof. repeat split; vm_compute; reflexivity. Qed.

(** ** Encoding integers *)

Lemma while_integer_spec (fuel : nat) (base : Z) :
  2 <= base ->
  forall integer indexes,
    0 <= integer < 2 ^ Z.of_nat fuel ->
    exists front,
      Radix.while_integer fuel base integer indexes = Ok (front ++ indexes)
      /\ positional base front = integer
      /\ Forall (fun i => 0 <= i < base) front
      /\ (0 < integer -> front <> []).
Proof.
  intros Hbase. induction fuel as [|fuel IH]; intros integer indexes Hrange.
  - assert (integer = 0) by (cbn in Hrange; lia). subst.
    exists []. cbn. repeat split; [constructor | lia].
  - cbn [Radix.while_integer]. destruct (integer =? 0) eqn:E0.
    + apply Z.eqb_eq in E0. subst. exists []. cbn.
      repeat split; [constructor | lia].
    + apply Z.eqb_neq in E0.
      assert (Eb : (base =? 0) = false) by (apply Z.eqb_neq; lia).
      rewrite Eb.
      rewrite Nat2Z.inj_succ, Z.pow_succ_r in Hrange by lia.
      destruct (IH (integer / base) ((integer mod base) :: indexes))
        as (front & Hrun & Hval & Hall & _).
      { split; [apply Z.div_pos; lia|].
        apply Z.div_lt_upper_bound; nia. }
      exists (front ++ [integer mod base]). repeat split.
      * rewrite Hrun. now rewrite <- app_assoc.
      * rewrite positional_snoc, Hval.
        rewrite (Z.div_mod integer base) at 3 by lia. ring.
      * apply Forall_app. split; [assumption|].
        constructor; [|constructor]. apply Z.mod_pos_bound. lia.
      * intros _ H. now destruct front.
Qed.

Lemma integer_indexes_spec (fuel : nat) (base integer : Z) :
  2 <= base -> 0 <= integer < 2 ^ Z.of_nat fuel ->
  exists indexes,
    Radix.integer_indexes fuel base integer = Ok indexes
    /\ positional base indexes = integer
    /\ Forall (fun i => 0 <= i < base) indexes
    /\ indexes <> [].
Proof.
  intros Hbase Hrange. unfold Radix.integer_indexes.
  destruct (integer =? 0) eqn:E0.
  - apply Z.eqb_eq in E0. subst. exists [0]. repeat split.
    + constructor; [lia | constructor].
    + discriminate.
  - apply Z.eqb_neq in E0.
    destruct (while_integer_spec fuel base Hbase integer [] Hrange)
      as (front & Hrun & Hval & Hall & Hne).
    rewrite List.app_nil_r in Hrun. exists front.
    repeat split; try assumption. apply Hne. lia.
Qed.

Lemma str_of_ones (k : nat) : str_of_uint (ones k) = repeat 49%N k.
Proof. induction k as [|k IH]; cbn; [reflexivity | now rewrite IH]. Qed.

Lemma format_d_repunit (k : nat) :
  (0 < k)%nat -> format_d (repunit k) = repeat 49%N k.
Proof.
  intros Hk. unfold format_d, repunit.
  change (Z.of_uint (ones k)) with (Z.of_int (Decimal.Pos (ones k))).
  rewrite DecimalZ.to_of. destruct k as [|k]; [lia|].
  cbn [ones Decimal.norm Decimal.unorm Decimal.nzhead].
  now rewrite <- str_of_ones.
Qed.

Lemma format_d_neg_repunit (k : nat) :
  (0 < k)%nat -> format_d (repunit k * -1) = 45%N :: repeat 49%N k.
Proof.
  intros Hk. unfold format_d, repunit.
  replace (Z.of_uint (ones k) * -1)
    with (Z.of_int (Decimal.Neg (ones k))) by (cbn [Z.of_int]; ring).
  rewrite DecimalZ.to_of. destruct k as [|k]; [lia|].
  cbn [ones Decimal.norm Decimal.unorm Decimal.nzhead].
  now rewrite <- str_of_ones.
Qed.

Lemma fill_template_ones (self : Radix.t) (ds : list char) :
  forall is_left_fill output,
    Radix.fill_template_loop self (repeat 49%N (List.length ds))
      is_left_fill ds output
    = Ok (output ++ ds).
Proof.
  induction ds as [|d ds IH]; intros is_left_fill output.
  - cbn. now rewrite List.app_nil_r.
  - cbn [List.length repeat Radix.fill_template_loop].
    change (char_in 49%N (skipn 1 string_digits)) with true.
    change (char_in 49%N string_digits) with true.
    rewrite andb_true_r.
    replace (if is_left_fill then false else is_left_fill) with false
      by now destruct is_left_fill.
    cbn iota. rewrite IH. now rewrite <- app_assoc.
Qed.

Section EncodeInteger.

Variable self : Radix.t.
Hypothesis Hwf : well_formed self = true.

Lemma lookup_digits_spells (indexes : list Z) :
  Forall (fun i => 0 <= i < Radix.base self) indexes ->
  exists ds,
    Radix.lookup_digits self indexes = Ok ds /\ spells self indexes ds.
Proof.
  induction 1 as [|i indexes Hi _ (ds & Hds & Hsp)].
  - exists []. split; [reflexivity | constructor].
  - rewrite (wf_base self Hwf) in Hi. unfold len in Hi.
    destruct (nth_error (Radix.digits self) (Z.to_nat i)) as [d|] eqn:Ed.
    + exists (d :: ds). split.
      * cbn [Radix.lookup_digits]. unfold getitem.
        assert (E : (i <? 0) = false) by (apply Z.ltb_ge; lia).
        rewrite E, E, Ed, Hds. reflexivity.
      * constructor; [split; [lia | assumption] | assumption].
    + apply nth_error_None in Ed. lia.
Qed.

(** What [encode] returns on an [int] with the default format. *)
Lemma encode_int (fuel : nat) (n : Z) :
  Z.abs n < 2 ^ Z.of_nat fuel ->
  exists indexes ds,
    Radix.encode fuel self (Int n) None
    = Ok (sign_symbol self (if n <? 0 then Some true else None) ++ ds)
    /\ spells self indexes ds
    /\ indexes <> []
    /\ positional (Radix.base self) indexes = Z.abs n.
Proof.
  intros Hfuel.
  destruct (integer_indexes_spec fuel (Radix.base self) (Z.abs n)
              (wf_base_ge_2 self Hwf) (conj (Z.abs_nonneg n) Hfuel))
    as (indexes & Hidx & Hval & Hall & Hne).
  destruct (lookup_digits_spells indexes Hall) as (ds & Hds & Hsp).
  exists indexes, ds. repeat split; try assumption.
  assert (Hlen : List.length indexes = List.length ds)
    by exact (Forall2_length Hsp).
  assert (Hpos : (0 < List.length indexes)%nat)
    by (destruct indexes; [contradiction | cbn; lia]).
  unfold Radix.encode. cbn [Radix.split_number bind].
  rewrite Hidx. cbn [bind]. unfold Radix.make_template.
  cbn [Radix.not_fmt Radix.is_negative bind]. rewrite Hds. cbn [bind].
  unfold Radix._fill_template. destruct (n <? 0).
  - rewrite (format_d_neg_repunit _ Hpos), Hlen.
    cbn [Radix.fill_template_loop].
    change (char_in 45%N (skipn 1 string_digits)) with false.
    change (char_in 45%N string_digits) with false.
    change (char_eqb 45%N 45%N) with true.
    cbn [andb]. cbn iota. rewrite fill_template_ones. reflexivity.
  - rewrite (format_d_repunit _ Hpos), Hlen, fill_template_ones. reflexivity.
Qed.

End EncodeInteger.

(** C1: on every well-formed alphabet, and the named alphabets of the class
    all are, decoding what [encode] returns for an integer [n] with the
    default format gives [n] back, zero and negative integers included.
    The fuel only has to cover the digits of [n]. *)
Theorem decode_encode_int (libm_pow : Z -> Z -> float) (fuel : nat)
    (self : Radix.t) (n : Z) :
  well_formed self = true ->
  Z.abs n < 2 ^ Z.of_nat fuel ->
  (s <- Radix.encode fuel self (Int n) None ;; Radix.decode libm_pow self s)
  = Ok (Int n).
Proof.
  intros Hwf Hfuel.
  destruct (encode_int self Hwf fuel n Hfuel)
    as (indexes & ds & -> & Hsp & Hne & Hval).
  cbn [bind].
  rewrite (decode_integer_string libm_pow self Hwf _ indexes ds Hsp Hne).
  rewrite Hval. f_equal. f_equal.
  destruct (n <? 0) eqn:E; cbn [signed];
    [apply Z.ltb_lt in E | apply Z.ltb_ge in E]; lia.
Qed.

Lemma decode_encode_int_witness :
  (s <- Radix.encode 8 (with_defaults (lit "0123456789ABCDEF")) (Int (-255))
          None ;;
   Radix.decode correctly_rounded_pow
     (with_defaults (lit "0123456789ABCDEF")) s)
  = Ok (Int (-255)).
Proof.
  apply (decode_encode_int correctly_rounded_pow 8
           (with_defaults (lit "0123456789ABCDEF")) (-255)).
  - reflexivity.
  - reflexivity.
Defined.

(** The named alphabets are well formed, and so is [by_base(b)] for every
    [b] from 2 to 62. *)
Lemma presets_well_formed : forallb is_well_formed presets = true.
Proof. vm_compute. reflexivity. Qed.

Lemma by_base_well_formed (b : Z) :
  2 <= b <= 62 -> is_well_formed (Radix.by_base b Radix.no_kwargs) = true.
Proof.
  intros Hb.
  assert (H : forallb (fun k => is_well_formed
                         (Radix.by_base (Z.of_nat k + 2) Radix.no_kwargs))
                (seq 0 61) = true) by (vm_compute; reflexivity).
  rewrite forallb_forall in H.
  replace b with (Z.of_nat (Z.to_nat (b - 2)) + 2) by lia.
  apply H, in_seq. lia.
Qed.

(** Outside the well-formed alphabets the loop of [encode] need not end: in
    base 1 it never does on a non-zero integer, whatever the fuel. *)
Lemma while_integer_base_1 (fuel : nat) (integer : Z) (indexes : list Z) :
  integer <> 0 -> Radix.while_integer fuel 1 integer indexes = OutOfFuel.
Proof.
  revert indexes. induction fuel as [|fuel IH]; intros indexes Hne;
    cbn [Radix.while_integer];
    apply Z.eqb_neq in Hne; rewrite Hne; [reflexivity|].
  change (1 =? 0) with false. cbn iota.
  rewrite Z.div_1_r. apply IH. now apply Z.eqb_neq.
Qed.

(** The literal scenarios of the specification. *)
Example encode_binary_10 :
  (r <- Radix.bin Radix.no_kwargs ;; Radix.encode 8 r (Int 10) None)
  = Ok (lit "1010").
Proof. reflexivity. Qed.

Example decode_binary_1010 :
  (r <- Radix.bin Radix.no_kwargs ;;
   Radix.decode correctly_rounded_pow r (lit "1010"))
  = Ok (Int 10).
Proof. reflexivity. Qed.

Example encode_dozenal_13 :
  (r <- Radix.dozenal Radix.no_kwargs ;; Radix.encode 8 r (Int 13) None)
  = Ok (lit "11").
Proof. reflexivity. Qed.

Example base57_has_57_digits :
  (r <- Radix.base57 Radix.no_kwargs ;; Ok (Radix.base r)) = Ok 57.
Proof. reflexivity. Qed.

(** ** Encoding floats: rounding at a fixed scale *)

Lemma positional_rev_cons (base i : Z) (rest : list Z) :
  positional base (rev (i :: rest)) = positional base (rev rest) * base + i.
Proof. cbn [rev]. apply positional_snoc. Qed.

(** The carry loop adds one to the number the digits denote; what runs off
    the most significant end is one unit of the next place. *)
Lemma carry_value (base : Z) (rev_indexes : list Z) :
  forall r exhausted,
    Radix.carry base rev_indexes = (r, exhausted) ->
    List.length r = List.length rev_indexes
    /\ positional base (rev r)
       + (if exhausted then base ^ len rev_indexes else 0)
       = positional base (rev rev_indexes) + 1.
Proof.
  induction rev_indexes as [|i rest IH]; intros r exhausted H.
  - cbn in H. injection H as <- <-. split; reflexivity.
  - cbn [Radix.carry] in H. destruct (i + 1 =? base) eqn:E.
    + destruct (Radix.carry base rest) as [r' exhausted'].
      injection H as <- <-.
      destruct (IH r' exhausted' eq_refl) as [Hlen Hval].
      apply Z.eqb_eq in E. split; [cbn; now rewrite Hlen|].
      rewrite !positional_rev_cons.
      assert (El : len (i :: rest) = len rest + 1)
        by (unfold len; cbn [List.length]; lia).
      rewrite El, Z.pow_add_r, Z.pow_1_r by (unfold len; lia).
      destruct exhausted'; nia.
    + injection H as <- <-. split; [reflexivity|].
      rewrite !positional_rev_cons. ring.
Qed.

Lemma carry_range (base : Z) (rev_indexes : list Z) :
  2 <= base ->
  Forall (fun i => 0 <= i < base) rev_indexes ->
  Forall (fun i => 0 <= i < base) (fst (Radix.carry base rev_indexes)).
Proof.
  intros Hbase. induction 1 as [|i rest Hi Hrest IH]; cbn [Radix.carry].
  - constructor.
  - destruct (i + 1 =? base) eqn:E.
    + destruct (Radix.carry base rest) as [r' exhausted'].
      cbn [fst] in *. constructor; [lia | assumption].
    + apply Z.eqb_neq in E. cbn [fst]. constructor; [lia | assumption].
Qed.

Lemma round_indexes_value (base : Z) (fraction : float) (indexes : list Z) :
  positional base (Radix.round_indexes base fraction indexes)
  = positional base indexes + (if flt float_half fraction then 1 else 0).
Proof.
  unfold Radix.round_indexes. destruct (flt float_half fraction); [|lia].
  destruct (Radix.carry base (rev indexes)) as [r exhausted] eqn:E.
  destruct (carry_value _ _ _ _ E) as [Hlen Hval].
  rewrite rev_involutive in Hval. destruct exhausted; [|lia].
  rewrite positional_cons.
  assert (El : len (rev r) = len (rev indexes))
    by (unfold len; now rewrite length_rev, Hlen).
  rewrite El. lia.
Qed.

Lemma round_indexes_range (base : Z) (fraction : float) (indexes : list Z) :
  2 <= base ->
  Forall (fun i => 0 <= i < base) indexes ->
  Forall (fun i => 0 <= i < base)
    (Radix.round_indexes base fraction indexes).
Proof.
  intros Hbase Hall. unfold Radix.round_indexes.
  destruct (flt float_half fraction); [|assumption].
  pose proof (carry_range base (rev indexes) Hbase) as H.
  destruct (Radix.carry base (rev indexes)) as [r exhausted]. cbn [fst] in H.
  assert (Hr : Forall (fun i => 0 <= i < base) (rev r)).
  { apply Forall_rev, H, Forall_rev, Hall. }
  destruct exhausted; [constructor; [lia | assumption] | assumption].
Qed.

(** The carry loop, exactly: it turns the run of largest digits at the least
    significant end into zeros and adds one to the digit that follows; when
    the whole list is such a run it turns it into zeros and reports that it
    ran off the end. *)
Lemma carry_exact (base : Z) (rev_indexes : list Z) :
  forall r exhausted,
    Radix.carry base rev_indexes = (r, exhausted) ->
    if exhausted
    then rev_indexes = repeat (base - 1) (List.length rev_indexes)
         /\ r = repeat 0 (List.length rev_indexes)
    else exists k d back,
           rev_indexes = repeat (base - 1) k ++ d :: back
           /\ d + 1 <> base
           /\ r = repeat 0 k ++ (d + 1) :: back.
Proof.
  induction rev_indexes as [|i rest IH]; intros r exhausted;
    cbn [Radix.carry].
  - intros [= <- <-]. split; reflexivity.
  - destruct (i + 1 =? base) eqn:E.
    + apply Z.eqb_eq in E. assert (Ei : i = base - 1) by lia.
      destruct (Radix.carry base rest) as [r' exhausted'].
      intros [= <- <-]. specialize (IH r' exhausted' eq_refl).
      destruct exhausted'.
      * destruct IH as [Hrest ->]. cbn [List.length repeat].
        split; [|reflexivity]. rewrite <- Hrest. now f_equal.
      * destruct IH as (k & d & back & -> & Hd & ->).
        exists (S k), d, back. cbn [repeat app].
        repeat split; [now f_equal | assumption].
    + apply Z.eqb_neq in E. intros [= <- <-].
      exists O, i, rest. repeat split. assumption.
Qed.

(** The rounding step, exactly, when the remainder is above one half. *)
Lemma round_indexes_exact (base : Z) (fraction : float) (indexes : list Z) :
  flt float_half fraction = true ->
  (exists front d k,
     indexes = front ++ d :: repeat (base - 1) k
     /\ d + 1 <> base
     /\ Radix.round_indexes base fraction indexes
        = front ++ (d + 1) :: repeat 0 k)
  \/ (exists k,
        indexes = repeat (base - 1) k
        /\ Radix.round_indexes base fraction indexes = 1 :: repeat 0 k).
Proof.
  intros Hhalf. unfold Radix.round_indexes. rewrite Hhalf.
  destruct (Radix.carry base (rev indexes)) as [r exhausted] eqn:E.
  pose proof (carry_exact _ _ _ _ E) as H. destruct exhausted.
  - right. destruct H as [Hrev ->]. exists (List.length (rev indexes)).
    rewrite rev_repeat. split; [|reflexivity].
    apply (f_equal (@rev Z)) in Hrev.
    now rewrite rev_involutive, rev_repeat in Hrev.
  - left. destruct H as (k & d & back & Hrev & Hd & ->).
    apply (f_equal (@rev Z)) in Hrev.
    rewrite rev_involutive, rev_app_distr in Hrev. cbn [rev] in Hrev.
    rewrite rev_repeat, <- app_assoc in Hrev. cbn [app] in Hrev.
    exists (rev back), d, k. repeat split; try assumption.
    rewrite rev_app_distr. cbn [rev].
    now rewrite rev_repeat, <- app_assoc.
Qed.

(** C3 (as the code has it): when a float is encoded at a fixed scale other
    than 0, the digits written into the template are the integer digits
    followed by [scale] fraction digits, rounded by the remainder [rest]
    left after the last of them.  Exactly when [rest] is strictly greater
    than one half, one unit in the last place is added in place: the run of
    largest digits at the end becomes zeros and the digit before it is
    incremented, so that carries run leftward through fraction and integer
    digits, and when every digit is the largest one the list becomes a new
    leading 1 followed by zeros.  Otherwise, a remainder of exactly one
    half included, the digits are left as they are. *)
Theorem encode_fixed_scale_rounding (fuel : nat) (self : Radix.t) (x : float)
    (fmt scale integer : Z) (fraction rest : float)
    (ints all : list Z) (template : str) :
  fmt <> 0 ->
  Radix.split_number (Float x) = Ok (integer, Some fraction) ->
  Radix.integer_indexes fuel (Radix.base self) integer = Ok ints ->
  Radix.make_template (Float x) (Some fmt) true ints = Ok (scale, template) ->
  Radix.fraction_indexes (Z.to_nat scale) (Radix.base self) fraction ints
  = Ok (all, rest) ->
  exists rounded,
    Radix.encode fuel self (Float x) (Some fmt)
    = (digits <- Radix.lookup_digits self rounded ;;
       Radix._fill_template self template digits)
    /\ scale = fmt
    /\ (if flt float_half rest
        then ((exists front d k,
                 all = front ++ d :: repeat (Radix.base self - 1) k
                 /\ d + 1 <> Radix.base self
                 /\ rounded = front ++ (d + 1) :: repeat 0 k)
              \/ (exists k,
                    all = repeat (Radix.base self - 1) k
                    /\ rounded = 1 :: repeat 0 k))
             /\ positional (Radix.base self) rounded
                = positional (Radix.base self) all + 1
        else rounded = all)
    /\ (2 <= Radix.base self ->
        Forall (fun i => 0 <= i < Radix.base self) all ->
        Forall (fun i => 0 <= i < Radix.base self) rounded).
Proof.
  intros Hfmt Hsplit Hints Htemplate Hfrac.
  exists (Radix.round_indexes (Radix.base self) rest all).
  repeat split.
  - unfold Radix.encode. rewrite Hsplit. cbn [bind]. rewrite Hints.
    cbn [bind]. rewrite Htemplate. cbn [bind]. rewrite Hfrac. cbn [bind].
    destruct (Radix.lookup_digits self _) as [digits| |]; cbn [bind];
      try reflexivity.
    destruct (Radix._fill_template self template digits); cbn [bind];
      try reflexivity.
    cbn [Radix.not_fmt andb]. apply Z.eqb_neq in Hfmt. now rewrite Hfmt.
  - unfold Radix.make_template in Htemplate.
    apply Z.eqb_neq in Hfmt. rewrite Hfmt in Htemplate.
    destruct (format_f _ fmt); cbn [bind] in Htemplate; congruence.
  - pose proof (round_indexes_value (Radix.base self) rest all) as Hval.
    pose proof (round_indexes_exact (Radix.base self) rest all) as Hex.
    unfold Radix.round_indexes in *.
    destruct (flt float_half rest).
    + split; [exact (Hex eq_refl) | exact Hval].
    + reflexivity.
  - intros Hbase Hall. now apply round_indexes_range.
Qed.

(** 1.996 at scale 2 in base 10: the digits 1, 9, 9 with the remainder 0.6
    become 2, 0, 0. *)
Lemma encode_fixed_scale_rounding_witness :
  exists rounded,
    Radix.encode 64 (with_defaults (lit "0123456789"))
      (Float (float_of_ratio 1996 1000)) (Some 2)
    = (digits <- Radix.lookup_digits (with_defaults (lit "0123456789"))
                   rounded ;;
       Radix._fill_template (with_defaults (lit "0123456789")) (lit "1.11")
         digits)
    /\ 2 = 2
    /\ (((exists front d k,
            [1; 9; 9] = front ++ d :: repeat (10 - 1) k
            /\ d + 1 <> 10
            /\ rounded = front ++ (d + 1) :: repeat 0 k)
         \/ (exists k,
               [1; 9; 9] = repeat (10 - 1) k
               /\ rounded = 1 :: repeat 0 k))
        /\ positional 10 rounded = positional 10 [1; 9; 9] + 1)
    /\ (2 <= 10 ->
        Forall (fun i => 0 <= i < 10) [1; 9; 9] ->
        Forall (fun i => 0 <= i < 10) rounded).
Proof.
  apply (encode_fixed_scale_rounding 64 (with_defaults (lit "0123456789"))
           (float_of_ratio 1996 1000) 2 2 1
           (S754_finite false 8971170457722028 (-53))
           (S754_finite false 5404319552844672 (-53))
           [1] [1; 9; 9] (lit "1.11")).
  - discriminate.
  - vm_compute. reflexivity.
  - vm_compute. reflexivity.
  - vm_compute. reflexivity.
  - vm_compute. reflexivity.
Defined.

(** C3, counterexample: 0.25 at scale 1 in base 10.  After the digit 2
    the remainder is exactly one half, the next digit would be 5, and the
    digit 2 is not incremented: the result is ["0.2"]. *)
Lemma encode_half_not_rounded_up :
  Radix.fraction_indexes 1 10 (float_of_ratio 25 100) [0]
  = Ok ([0; 2], float_half)
  /\ (r <- Radix.by_base 10 Radix.no_kwargs ;;
      Radix.encode 64 r (Float (float_of_ratio 25 100)) (Some 1))
     = Ok (lit "0.2").
Proof. split; vm_compute; reflexivity. Qed.

(** ** Encoding floats: what the code does where it leaves the
    specification *)

(** C2: with no format, [100.0] keeps its integer digits, but [1e16], whose
    17 integer digits leave a scale of 0 and so no separator in the output,
    loses all its trailing zeros to [rstrip] and comes out as ["1"]. *)
Theorem encode_default_strips_integer_zeros :
  (r <- Radix.by_base 10 Radix.no_kwargs ;;
   Radix.encode 64 r (Float (float_of_ratio 100 1)) None)
  = Ok (lit "100.0")
  /\ (r <- Radix.by_base 10 Radix.no_kwargs ;;
      Radix.encode 64 r (Float (float_of_ratio (10 ^ 16) 1)) None)
     = Ok (lit "1").
Proof. split; vm_compute; reflexivity. Qed.

(** C4: a scale of 0 is taken for no format at all, so that 9.99 and 0.9999
    are written in full; and at scale 1 the carry of 9.99 does put a leading
    1 in front of the digits 0, 0, but the template was cut for two digits
    and the output is ["1.0"]. *)
Theorem encode_carry_out_misplaced :
  (r <- Radix.by_base 10 Radix.no_kwargs ;;
   Radix.encode 64 r (Float (float_of_ratio 999 100)) (Some 0))
  = Ok (lit "9.9900000000000002")
  /\ (r <- Radix.by_base 10 Radix.no_kwargs ;;
      Radix.encode 64 r (Float (float_of_ratio 9999 10000)) (Some 0))
     = Ok (lit "0.9999000000000001")
  /\ (r <- Radix.by_base 10 Radix.no_kwargs ;;
      Radix.encode 64 r (Float (float_of_ratio 999 100)) (Some 1))
     = Ok (lit "1.0").
Proof. repeat split; vm_compute; reflexivity. Qed.

(** ** Further properties of [encode] on integers *)

(** The loop leaves a non-zero digit in front. *)
Lemma while_integer_leading (fuel : nat) (base : Z) :
  2 <= base ->
  forall integer indexes r,
    0 < integer ->
    Radix.while_integer fuel base integer indexes = Ok r ->
    exists d front, r = (d :: front) ++ indexes /\ d <> 0.
Proof.
  intros Hbase. induction fuel as [|fuel IH]; intros integer indexes r Hpos;
    cbn [Radix.while_integer];
    assert (E0 : (integer =? 0) = false) by (apply Z.eqb_neq; lia);
    rewrite E0; [discriminate|].
  assert (Eb : (base =? 0) = false) by (apply Z.eqb_neq; lia). rewrite Eb.
  intros Hrun. destruct (Z.eq_dec (integer / base) 0) as [Ez|Ez].
  - rewrite Ez in Hrun. destruct fuel; cbn in Hrun; injection Hrun as <-;
      exists (integer mod base), []; (split; [reflexivity|]);
      rewrite Z.mod_small; try lia;
      (split; [lia | apply Z.div_small_iff in Ez; lia]).
  - assert (Hq : 0 < integer / base).
    { pose proof (Z.div_pos integer base). lia. }
    destruct (IH _ _ _ Hq Hrun) as (d & front & -> & Hd).
    exists d, (front ++ [integer mod base]). split; [|assumption].
    cbn. now rewrite <- app_assoc.
Qed.

(** From the digits to the output, on any instance: an integer with the
    default format comes out as its sign and the symbols of its digits. *)
Lemma encode_int_of_indexes (fuel : nat) (self : Radix.t) (n : Z)
    (indexes : list Z) (ds : str) :
  Radix.integer_indexes fuel (Radix.base self) (Z.abs n) = Ok indexes ->
  Radix.lookup_digits self indexes = Ok ds ->
  Radix.encode fuel self (Int n) None
  = Ok ((if n <? 0 then Radix.neg self else []) ++ ds).
Proof.
  intros Hidx Hds.
  assert (Hlen : List.length indexes = List.length ds).
  { clear Hidx. revert ds Hds.
    induction indexes as [|i rest IH]; intros ds; cbn [Radix.lookup_digits].
    - now intros [= <-].
    - destruct (getitem _ i); cbn [bind]; try discriminate.
      destruct (Radix.lookup_digits self rest); cbn [bind]; try discriminate.
      intros [= <-]. cbn. f_equal. now apply IH. }
  assert (Hpos : (0 < List.length indexes)%nat).
  { unfold Radix.integer_indexes in Hidx.
    destruct (Z.abs n =? 0) eqn:E0; [injection Hidx as <-; cbn; lia|].
    destruct fuel; cbn [Radix.while_integer] in Hidx; rewrite E0 in Hidx;
      [discriminate|].
    destruct (Radix.base self =? 0); [discriminate|].
    assert (G : forall f b i acc r,
               Radix.while_integer f b i acc = Ok r ->
               (List.length acc <= List.length r)%nat).
    { induction f as [|f IHf]; intros b i acc r; cbn [Radix.while_integer];
        destruct (i =? 0); try (intros [= <-]; lia); try discriminate.
      destruct (b =? 0); [discriminate|]. intros H. apply IHf in H.
      cbn in H. lia. }
    apply G in Hidx. cbn in Hidx. lia. }
  unfold Radix.encode. cbn [Radix.split_number bind].
  rewrite Hidx. cbn [bind]. unfold Radix.make_template.
  cbn [Radix.not_fmt Radix.is_negative bind]. rewrite Hds. cbn [bind].
  unfold Radix._fill_template. destruct (n <? 0).
  - rewrite (format_d_neg_repunit _ Hpos), Hlen.
    cbn [Radix.fill_template_loop].
    change (char_in 45%N (skipn 1 string_digits)) with false.
    change (char_in 45%N string_digits) with false.
    change (char_eqb 45%N 45%N) with true.
    cbn [andb]. cbn iota. rewrite fill_template_ones. reflexivity.
  - rewrite (format_d_repunit _ Hpos), Hlen, fill_template_ones. reflexivity.
Qed.

(** X1: on a well-formed alphabet the encoding of an integer is its
    canonical numeral: the negative sign if it is negative, then the symbols
    of the digits of its absolute value, each below the base, with no zero
    in front unless the integer is 0, which is the single zero digit. *)
Theorem encode_int_canonical (fuel : nat) (self : Radix.t) (n : Z) :
  well_formed self = true ->
  Z.abs n < 2 ^ Z.of_nat fuel ->
  exists indexes ds,
    Radix.encode fuel self (Int n) None
    = Ok ((if n <? 0 then Radix.neg self else []) ++ ds)
    /\ spells self indexes ds
    /\ positional (Radix.base self) indexes = Z.abs n
    /\ Forall (fun i => 0 <= i < Radix.base self) indexes
    /\ (n = 0 -> indexes = [0])
    /\ (n <> 0 -> exists d rest, indexes = d :: rest /\ d <> 0).
Proof.
  intros Hwf Hfuel.
  pose proof (wf_base_ge_2 self Hwf) as Hbase.
  destruct (integer_indexes_spec fuel (Radix.base self) (Z.abs n) Hbase
              (conj (Z.abs_nonneg n) Hfuel))
    as (indexes & Hidx & Hval & Hall & Hne).
  destruct (lookup_digits_spells self Hwf indexes Hall) as (ds & Hds & Hsp).
  exists indexes, ds. repeat split; try assumption.
  - exact (encode_int_of_indexes fuel self n indexes ds Hidx Hds).
  - intros ->. cbn in Hidx. now injection Hidx as <-.
  - intros Hn. unfold Radix.integer_indexes in Hidx.
    assert (E0 : (Z.abs n =? 0) = false) by (apply Z.eqb_neq; lia).
    rewrite E0 in Hidx.
    destruct (while_integer_leading fuel _ Hbase (Z.abs n) [] indexes
                ltac:(lia) Hidx) as (d & front & -> & Hd).
    exists d, front. now rewrite List.app_nil_r.
Qed.

Lemma encode_int_canonical_witness :
  exists indexes ds,
    Radix.encode 8 (with_defaults (lit "0123456789ABCDEF")) (Int (-255)) None
    = Ok (lit "-" ++ ds)
    /\ spells (with_defaults (lit "0123456789ABCDEF")) indexes ds
    /\ positional 16 indexes = 255
    /\ Forall (fun i => 0 <= i < 16) indexes
    /\ (-255 = 0 -> indexes = [0])
    /\ (-255 <> 0 -> exists d rest, indexes = d :: rest /\ d <> 0).
Proof.
  apply (encode_int_canonical 8 (with_defaults (lit "0123456789ABCDEF"))
           (-255)); reflexivity.
Defined.

(** X2: on a well-formed alphabet two integers with the same encoding are
    equal. *)
Theorem encode_int_injective (fuel : nat) (self : Radix.t) (m n : Z) :
  well_formed self = true ->
  Z.abs m < 2 ^ Z.of_nat fuel ->
  Z.abs n < 2 ^ Z.of_nat fuel ->
  Radix.encode fuel self (Int m) None = Radix.encode fuel self (Int n) None ->
  m = n.
Proof.
  intros Hwf Hm Hn Heq.
  destruct (encode_int self Hwf fuel m Hm) as (im & dm & Em & Sm & Nm & Vm).
  destruct (encode_int self Hwf fuel n Hn) as (jn & dn & En & Sn & Nn & Vn).
  rewrite Em, En in Heq. injection Heq as Heq.
  pose proof (decode_integer_string correctly_rounded_pow self Hwf
                (if m <? 0 then Some true else None) im dm Sm Nm) as Dm.
  pose proof (decode_integer_string correctly_rounded_pow self Hwf
                (if n <? 0 then Some true else None) jn dn Sn Nn) as Dn.
  rewrite Heq, Dn in Dm. injection Dm as Dm. rewrite Vm, Vn in Dm.
  destruct (m <? 0) eqn:Lm, (n <? 0) eqn:Ln; cbn [signed] in Dm;
    rewrite ?Z.ltb_lt, ?Z.ltb_ge in *; lia.
Qed.

Lemma encode_int_injective_witness :
  Radix.encode 8 (with_defaults (lit "01")) (Int (2 + 3)) None
  = Radix.encode 8 (with_defaults (lit "01")) (Int 5) None
  /\ 2 + 3 = 5.
Proof.
  split; [reflexivity|].
  apply (encode_int_injective 8 (with_defaults (lit "01")) (2 + 3) 5);
    reflexivity.
Defined.

(** X3: an integer cannot be encoded at an integer scale other than 0: the
    scale reaches [format] as the format of an [int] template, and the call
    raises [TypeError]. *)
Theorem encode_int_with_scale_raises (fuel : nat) (self : Radix.t)
    (n scale : Z) :
  2 <= Radix.base self ->
  Z.abs n < 2 ^ Z.of_nat fuel ->
  scale <> 0 ->
  Radix.encode fuel self (Int n) (Some scale) = Raise TypeError.
Proof.
  intros Hbase Hfuel Hscale.
  destruct (integer_indexes_spec fuel (Radix.base self) (Z.abs n) Hbase
              (conj (Z.abs_nonneg n) Hfuel)) as (indexes & Hidx & _).
  unfold Radix.encode. cbn [Radix.split_number bind]. rewrite Hidx.
  cbn [bind]. unfold Radix.make_template, Radix.not_fmt.
  apply Z.eqb_neq in Hscale. now rewrite Hscale.
Qed.

Lemma encode_int_with_scale_raises_witness :
  Radix.encode 8 (with_defaults (lit "0123456789")) (Int 5) (Some 2)
  = Raise TypeError.
Proof.
  apply (encode_int_with_scale_raises 8 (with_defaults (lit "0123456789"))
           5 2).
  - cbn. lia.
  - reflexivity.
  - discriminate.
Defined.

(** X4: a NaN and the two infinities are refused, whatever the alphabet,
    when [encode] is called with no format or with an integer scale:
    [divmod] turns each into a NaN, and [int] raises [ValueError] on it. *)
Theorem encode_non_finite_raises (fuel : nat) (self : Radix.t) (x : float)
    (fmt : option Z) :
  x = S754_nan \/ (exists s, x = S754_infinity s) ->
  Radix.encode fuel self (Float x) fmt
  = Raise (ValueError (lit "cannot convert float NaN to integer")).
Proof. intros [-> | [s ->]]; reflexivity. Qed.

Lemma encode_non_finite_raises_witness :
  Radix.encode 8 (with_defaults (lit "0123456789"))
    (Float (S754_infinity true)) (Some 2)
  = Raise (ValueError (lit "cannot convert float NaN to integer")).
Proof.
  apply (encode_non_finite_raises 8 (with_defaults (lit "0123456789"))
           (S754_infinity true) (Some 2)).
  right. exists true. reflexivity.
Defined.

(** X5: on an instance with no digit, such as [by_base(0)] returns,
    [encode] raises [ZeroDivisionError] on every non-zero integer and
    [IndexError] on 0. *)
Theorem encode_empty_alphabet (fuel : nat) (self : Radix.t) (n : Z)
    (fmt : option Z) :
  Radix.digits self = [] ->
  Radix.base self = 0 ->
  (n <> 0 -> Radix.encode (S fuel) self (Int n) fmt = Raise ZeroDivisionError)
  /\ Radix.encode fuel self (Int 0) None = Raise IndexError.
Proof.
  intros Hdigits Hbase. split.
  - intros Hn. unfold Radix.encode. cbn [Radix.split_number bind].
    unfold Radix.integer_indexes. cbn [Radix.while_integer].
    assert (E0 : (Z.abs n =? 0) = false) by (apply Z.eqb_neq; lia).
    now rewrite E0, Hbase.
  - unfold Radix.encode. cbn [Radix.split_number bind Z.abs].
    unfold Radix.integer_indexes. cbn [Z.eqb bind].
    cbn [Radix.make_template Radix.not_fmt Radix.is_negative bind Z.ltb
         Z.compare].
    cbn [Radix.lookup_digits]. now rewrite Hdigits.
Qed.

Lemma encode_empty_alphabet_witness :
  Radix.encode 1 (with_defaults []) (Int 7) None = Raise ZeroDivisionError
  /\ Radix.encode 0 (with_defaults []) (Int 0) None = Raise IndexError.
Proof.
  destruct (encode_empty_alphabet 0 (with_defaults []) 7 None eq_refl eq_refl)
    as [H7 H0].
  split; [apply H7; discriminate | exact H0].
Defined.

(** X6: on an instance of base 1 the loop that extracts the digits of a
    non-zero integer never ends: no amount of fuel lets [encode] return. *)
Theorem encode_base_1_diverges (fuel : nat) (self : Radix.t) (n : Z)
    (fmt : option Z) :
  Radix.base self = 1 ->
  n <> 0 ->
  Radix.encode fuel self (Int n) fmt = OutOfFuel.
Proof.
  intros Hbase Hn. unfold Radix.encode. cbn [Radix.split_number bind].
  unfold Radix.integer_indexes.
  assert (E0 : (Z.abs n =? 0) = false) by (apply Z.eqb_neq; lia).
  rewrite E0, Hbase, while_integer_base_1 by lia. reflexivity.
Qed.

Lemma encode_base_1_diverges_witness :
  Radix.encode 1000 (with_defaults (lit "0")) (Int 3) None = OutOfFuel.
Proof.
  apply (encode_base_1_diverges 1000 (with_defaults (lit "0")) 3 None).
  - reflexivity.
  - discriminate.
Defined.

(** X7: on every instance, the encoding of a negative integer is the
    negative sign followed by the encoding of its opposite; the two calls
    fail together. *)
Theorem encode_negative_int (fuel : nat) (self : Radix.t) (n : Z) :
  n < 0 ->
  Radix.encode fuel self (Int n) None
  = (s <- Radix.encode fuel self (Int (- n)) None ;; Ok (Radix.neg self ++ s)).
Proof.
  intros Hn.
  destruct (Radix.integer_indexes fuel (Radix.base self) (Z.abs n))
    as [indexes| |] eqn:Hidx.
  - destruct (Radix.lookup_digits self indexes) as [ds| |] eqn:Hds.
    + rewrite (encode_int_of_indexes fuel self n indexes ds Hidx Hds).
      rewrite <- Z.abs_opp in Hidx.
      rewrite (encode_int_of_indexes fuel self (- n) indexes ds Hidx Hds).
      assert (E1 : (n <? 0) = true) by (apply Z.ltb_lt; lia).
      assert (E2 : (- n <? 0) = false) by (apply Z.ltb_ge; lia).
      now rewrite E1, E2.
    + unfold Radix.encode. cbn [Radix.split_number bind].
      rewrite Z.abs_opp, Hidx. cbn [bind]. unfold Radix.make_template.
      cbn [Radix.not_fmt bind]. now rewrite Hds.
    + unfold Radix.encode. cbn [Radix.split_number bind].
      rewrite Z.abs_opp, Hidx. cbn [bind]. unfold Radix.make_template.
      cbn [Radix.not_fmt bind]. now rewrite Hds.
  - unfold Radix.encode. cbn [Radix.split_number bind].
    now rewrite Z.abs_opp, Hidx.
  - unfold Radix.encode. cbn [Radix.split_number bind].
    now rewrite Z.abs_opp, Hidx.
Qed.

Lemma encode_negative_int_witness :
  Radix.encode 8 (with_defaults (lit "0123456789XE")) (Int (-13)) None
  = (s <- Radix.encode 8 (with_defaults (lit "0123456789XE")) (Int 13) None ;;
     Ok (lit "-" ++ s)).
Proof.
  apply (encode_negative_int 8 (with_defaults (lit "0123456789XE")) (-13)).
  reflexivity.
Defined.

(** ** Further properties of [decode] *)

Lemma dropwhile_app_all (p : char -> bool) (l s : str) :
  forallb p l = true -> dropwhile p (l ++ s) = dropwhile p s.
Proof.
  induction l as [|c l IH]; cbn; [reflexivity|].
  intros [-> Hl]%andb_prop. now apply IH.
Qed.

Lemma dropwhile_app_some (p : char -> bool) (s r : str) :
  dropwhile p s <> [] -> dropwhile p (s ++ r) = dropwhile p s ++ r.
Proof.
  induction s as [|c s IH]; cbn; [contradiction|].
  destruct (p c); [assumption | reflexivity].
Qed.

Lemma strip_padded (l s r : str) :
  forallb isspace l = true -> forallb isspace r = true ->
  strip (l ++ s ++ r) = strip s.
Proof.
  intros Hl Hr. unfold strip. rewrite (dropwhile_app_all _ l _ Hl).
  destruct (dropwhile isspace s) as [|c t] eqn:E.
  - assert (Hs : forallb isspace s = true).
    { clear -E. induction s as [|c s IH]; cbn in *; [reflexivity|].
      destruct (isspace c); [now apply IH | discriminate]. }
    rewrite (dropwhile_app_all _ s _ Hs), (dropwhile_all _ _ Hr).
    reflexivity.
  - rewrite dropwhile_app_some by (rewrite E; discriminate).
    rewrite E, rev_app_distr, dropwhile_app_all; [reflexivity|].
    rewrite forallb_forall in *. intros x Hx. apply Hr. now apply in_rev.
Qed.

(** X8: white space around the string does not count: on every instance,
    [decode] returns or raises on a padded string what it does on the
    string itself. *)
Theorem decode_ignores_padding (libm_pow : Z -> Z -> float) (self : Radix.t)
    (l s r : str) :
  forallb isspace l = true -> forallb isspace r = true ->
  Radix.decode libm_pow self (l ++ s ++ r) = Radix.decode libm_pow self s.
Proof.
  intros Hl Hr. unfold Radix.decode, Radix.unsigned_part.
  now rewrite (strip_padded l s r Hl Hr).
Qed.

Lemma decode_ignores_padding_witness :
  Radix.decode correctly_rounded_pow (with_defaults (lit "0123456789"))
    (lit "  " ++ lit "-42" ++ [10%N])
  = Radix.decode correctly_rounded_pow (with_defaults (lit "0123456789"))
      (lit "-42").
Proof.
  apply (decode_ignores_padding correctly_rounded_pow
           (with_defaults (lit "0123456789")) (lit "  ") (lit "-42") [10%N]);
    reflexivity.
Defined.

(** Digits at non-negative exponents add up to an [int]. *)
Lemma decode_loop_int (libm_pow : Z -> Z -> float) (self : Radix.t)
    (pre : str) :
  forallb (fun c => char_in c (Radix.digits self)) pre = true ->
  forall out exponent,
    len pre - 1 <= exponent ->
    exists v,
      Radix.decode_loop libm_pow self pre (Int out) exponent = Ok (Int v).
Proof.
  induction pre as [|c pre IH]; intros Hpre out exponent He.
  - exists out. reflexivity.
  - cbn in Hpre. apply andb_prop in Hpre as [Hc Hpre].
    cbn [Radix.decode_loop].
    destruct (index_of c (Radix.digits self)) as [i|] eqn:Ei.
    + unfold len in He. cbn [List.length] in He.
      unfold Radix.py_pow.
      assert (E : (0 <=? exponent) = true) by (apply Z.leb_le; lia).
      rewrite E. cbn [bind Radix.py_mul Radix.py_add].
      apply IH; [assumption | unfold len; lia].
    + apply index_of_none in Ei. congruence.
Qed.

(** A run of digits goes through the loop, unless a conversion to [float]
    overflows. *)
Lemma decode_loop_digits (libm_pow : Z -> Z -> float) (self : Radix.t)
    (pre : str) (output : num) (exponent : Z) :
  Radix.base self = len (Radix.digits self) ->
  forallb (fun c => char_in c (Radix.digits self)) pre = true ->
  (exists v, Radix.decode_loop libm_pow self pre output exponent = Ok v)
  \/ Radix.decode_loop libm_pow self pre output exponent
     = Raise OverflowError.
Proof.
  intros Hbase Hpre.
  pose proof (decode_loop_outcome libm_pow self pre Hbase output exponent)
    as H.
  assert (Hno : existsb (fun c => negb (char_in c (Radix.digits self))) pre
                = false).
  { clear -Hpre. induction pre as [|c t IH]; cbn in *; [reflexivity|].
    apply andb_prop in Hpre as [-> Ht]. now rewrite IH. }
  destruct (Radix.decode_loop libm_pow self pre output exponent)
    as [v|[]|]; cbn [run_outcome] in H; eauto; try contradiction.
  congruence.
Qed.

(** X9: the error names the first character that is no digit.  On an
    instance whose base is its number of digits, when the digit run (the
    string without padding, sign and first separator) starts with digits
    followed by a character [c] that is no digit, [decode] raises
    [ValueError("Invalid digit 'c'")], unless the integer part overflowed
    a [float] before; with no separator in the string it always does. *)
Theorem decode_names_first_invalid (libm_pow : Z -> Z -> float)
    (self : Radix.t) (s pre post : str) (c : char) :
  Radix.base self = len (Radix.digits self) ->
  snd (Radix.digit_run self (snd (Radix.unsigned_part self s)))
  = pre ++ c :: post ->
  forallb (fun d => char_in d (Radix.digits self)) pre = true ->
  char_in c (Radix.digits self) = false ->
  (Radix.decode libm_pow self s = Raise (Radix.invalid_digit c)
   \/ Radix.decode libm_pow self s = Raise OverflowError)
  /\ (str_index (Radix.sep self) (snd (Radix.unsigned_part self s)) = None ->
      Radix.decode libm_pow self s = Raise (Radix.invalid_digit c)).
Proof.
  intros Hbase Hrun Hpre Hc. unfold Radix.decode.
  destruct (Radix.unsigned_part self s) as [is_negative number].
  cbn [snd] in *.
  assert (Hstep : forall output exponent,
             Radix.decode_loop libm_pow self (c :: post) output exponent
             = Raise (Radix.invalid_digit c)).
  { intros output exponent. cbn [Radix.decode_loop].
    apply index_of_none in Hc. now rewrite Hc. }
  split.
  - destruct (Radix.digit_run self number) as [exponent run].
    cbn [snd] in Hrun. subst run. rewrite decode_loop_app.
    destruct (decode_loop_digits libm_pow self pre (Int 0) exponent Hbase
                Hpre) as [[v ->] | ->]; cbn [bind]; [|now right].
    rewrite Hstep. now left.
  - intros Hsep. unfold Radix.digit_run in *. rewrite Hsep in *.
    cbn [snd] in Hrun. subst number. rewrite decode_loop_app.
    destruct (decode_loop_int libm_pow self pre Hpre 0
                (len (pre ++ c :: post) - 1)) as [v ->].
    { unfold len. rewrite length_app. cbn [List.length]. lia. }
    cbn [bind]. now rewrite Hstep.
Qed.

Lemma decode_names_first_invalid_witness :
  (Radix.decode correctly_rounded_pow
     (with_defaults (lit "0123456789ABCDEF")) (lit "12G")
   = Raise (Radix.invalid_digit 71%N)
   \/ Radix.decode correctly_rounded_pow
        (with_defaults (lit "0123456789ABCDEF")) (lit "12G")
      = Raise OverflowError)
  /\ (str_index (lit ".") (lit "12G") = None ->
      Radix.decode correctly_rounded_pow
        (with_defaults (lit "0123456789ABCDEF")) (lit "12G")
      = Raise (Radix.invalid_digit 71%N)).
Proof.
  apply (decode_names_first_invalid correctly_rounded_pow
           (with_defaults (lit "0123456789ABCDEF")) (lit "12G")
           (lit "12") [] 71%N); reflexivity.
Defined.

(** Digits at negative exponents keep or make the sum a [float]. *)
Lemma decode_loop_fraction (libm_pow : Z -> Z -> float) (self : Radix.t)
    (fracs : str) :
  Radix.base self = len (Radix.digits self) ->
  forallb (fun c => char_in c (Radix.digits self)) fracs = true ->
  forall output exponent,
    exponent < 0 ->
    (fracs <> [] \/ exists x, output = Float x) ->
    (exists x,
       Radix.decode_loop libm_pow self fracs output exponent = Ok (Float x))
    \/ Radix.decode_loop libm_pow self fracs output exponent
       = Raise OverflowError.
Proof.
  intros Hbase. induction fracs as [|c fracs IH];
    intros Hfr output exponent He Hout.
  - destruct Hout as [Hout | [x ->]]; [contradiction|]. left. now exists x.
  - cbn in Hfr. apply andb_prop in Hfr as [Hc Hfr].
    cbn [Radix.decode_loop].
    destruct (index_of c (Radix.digits self)) as [i|] eqn:Ei.
    2:{ apply index_of_none in Ei. congruence. }
    unfold Radix.py_pow.
    assert (E : (0 <=? exponent) = false) by (apply Z.leb_gt; lia).
    assert (Eb : (Radix.base self =? 0) = false).
    { apply Z.eqb_neq. rewrite Hbase. unfold len.
      destruct (Radix.digits self); [discriminate Hc | cbn; lia]. }
    rewrite E, Eb. cbn [bind Radix.py_mul].
    destruct (float_of_int_cases (Z.of_nat i)) as [[y ->] | ->];
      cbn [bind]; [|now right].
    assert (Hadd : (exists z, Radix.py_add output
                                (Float (fmul y (libm_pow (Radix.base self)
                                                  exponent)))
                              = Ok (Float z))
                   \/ Radix.py_add output
                        (Float (fmul y (libm_pow (Radix.base self) exponent)))
                      = Raise OverflowError).
    { destruct output as [v|v]; cbn [Radix.py_add]; [|eauto].
      destruct (float_of_int_cases v) as [[w ->] | ->]; cbn [bind]; eauto. }
    destruct Hadd as [[z ->] | ->]; cbn [bind]; [|now right].
    apply IH; [assumption | lia | right; now exists z].
Qed.

(** X10: a number written with digits after the separator is never decoded
    to an [int].  On a well-formed alphabet, a sign, digits, the separator
    and at least one more digit decode to a [float], unless a conversion to
    [float] overflows. *)
Theorem decode_fraction_is_float (libm_pow : Z -> Z -> float)
    (self : Radix.t) (sign : option bool) (indexes : list Z)
    (ds fracs : str) :
  well_formed self = true ->
  spells self indexes ds -> indexes <> [] ->
  fracs <> [] ->
  forallb (fun c => char_in c (Radix.digits self)) fracs = true ->
  (exists x,
     Radix.decode libm_pow self
       (sign_symbol self sign ++ ds ++ Radix.sep self ++ fracs)
     = Ok (Float x))
  \/ Radix.decode libm_pow self
       (sign_symbol self sign ++ ds ++ Radix.sep self ++ fracs)
     = Raise OverflowError.
Proof.
  intros Hwf Hsp Hne Hfne Hfr.
  rewrite (decode_with_separator libm_pow self sign indexes ds fracs Hwf Hsp
             Hne (digits_no_space self Hwf _ Hfr)).
  rewrite decode_loop_app, (decode_loop_spells libm_pow self Hwf _ _ Hsp).
  cbn [bind].
  destruct (decode_loop_fraction libm_pow self fracs (wf_base self Hwf) Hfr
              (Int (0 + positional (Radix.base self) indexes))
              (len ds - 1 - len ds) ltac:(lia) (or_introl Hfne))
    as [[x ->] | ->]; cbn [bind]; [|now right].
  left. destruct sign as [[|]|]; eexists; reflexivity.
Qed.

Lemma decode_fraction_is_float_witness :
  (exists x,
     Radix.decode correctly_rounded_pow (with_defaults (lit "0123456789"))
       (lit "-12.50") = Ok (Float x))
  \/ Radix.decode correctly_rounded_pow (with_defaults (lit "0123456789"))
       (lit "-12.50") = Raise OverflowError.
Proof.
  apply (decode_fraction_is_float correctly_rounded_pow
           (with_defaults (lit "0123456789")) (Some true) [1; 2]
           (lit "12") (lit "50")).
  - reflexivity.
  - repeat (apply Forall2_cons; [split; [lia | reflexivity]|]).
    apply Forall2_nil.
  - discriminate.
  - discriminate.
  - reflexivity.
Defined.

(** ** Templates, rounding and floats *)

Lemma fill_template_digits (self : Radix.t) (zero : char) (body : str) :
  getitem (Radix.digits self) 0 = Ok zero ->
  forallb (fun c => char_in c string_digits) body = true ->
  forall digits output,
    Radix.fill_template_loop self body false digits output
    = Ok (output ++ firstn (List.length body) digits
          ++ repeat zero (List.length body - List.length digits)).
Proof.
  intros Hzero. induction body as [|c body IH]; intros Hbody digits output.
  - cbn. now rewrite List.app_nil_r.
  - cbn [forallb] in Hbody. apply andb_prop in Hbody as [Hc Hbody].
    cbn [Radix.fill_template_loop andb]. rewrite Hc.
    destruct digits as [|d digits].
    + rewrite Hzero. cbn [bind]. rewrite (IH Hbody).
      rewrite !firstn_nil. cbn [List.length Nat.sub app repeat].
      rewrite Nat.sub_0_r, <- app_assoc. reflexivity.
    + rewrite (IH Hbody). cbn [List.length firstn Nat.sub].
      now rewrite <- app_assoc.
Qed.

(** X11: how [_fill_template] places digits in a template made of decimal
    digit characters only.  Each leading character 0 becomes the zero
    digit; from the first other character on, each character takes the
    next digit of the list; digits left over are dropped, and characters
    left over become the zero digit. *)
Theorem fill_template_placement (self : Radix.t) (zero : char)
    (k : nat) (body : str) (digits : list char) :
  getitem (Radix.digits self) 0 = Ok zero ->
  forallb (fun c => char_in c string_digits) body = true ->
  startswith (lit "0") body = false ->
  Radix._fill_template self (repeat 48%N k ++ body) digits
  = Ok (repeat zero k
        ++ firstn (List.length body) digits
        ++ repeat zero (List.length body - List.length digits)).
Proof.
  intros Hzero Hbody Hhead. unfold Radix._fill_template.
  assert (Hpad : forall output,
             Radix.fill_template_loop self (repeat 48%N k ++ body) true
               digits output
             = Radix.fill_template_loop self body true digits
                 (output ++ repeat zero k)).
  { induction k as [|k IH]; intros output.
    - cbn. now rewrite List.app_nil_r.
    - cbn [repeat app Radix.fill_template_loop].
      change (char_in 48%N (skipn 1 string_digits)) with false.
      change (char_in 48%N string_digits) with true.
      cbn [andb]. rewrite Hzero. cbn [bind].
      replace (match digits with _ => _ end)
        with (Radix.fill_template_loop self (repeat 48%N k ++ body) true
                digits (output ++ [zero]))
        by now destruct digits.
      rewrite IH, <- app_assoc. reflexivity. }
  rewrite Hpad. cbn [app]. destruct body as [|c body].
  - cbn. now rewrite List.app_nil_r.
  - pose proof Hbody as Hall. cbn [forallb] in Hbody.
    apply andb_prop in Hbody as [Hc _].
    assert (Hnz : char_in c (skipn 1 string_digits) = true).
    { change (startswith (lit "0") (c :: body))
        with (char_eqb 48%N c && true) in Hhead.
      rewrite andb_true_r in Hhead.
      change (char_in c string_digits)
        with (char_eqb c 48%N || char_in c (skipn 1 string_digits)) in Hc.
      unfold char_eqb in Hc, Hhead. rewrite N.eqb_sym in Hhead.
      now rewrite Hhead in Hc. }
    assert (Hfirst : forall output,
               Radix.fill_template_loop self (c :: body) true digits output
               = Radix.fill_template_loop self (c :: body) false digits
                   output).
    { intros output. cbn [Radix.fill_template_loop andb]. now rewrite Hnz. }
    rewrite Hfirst. apply (fill_template_digits self zero (c :: body) Hzero Hall).
Qed.

Lemma fill_template_placement_witness :
  Radix._fill_template (with_defaults (lit "0123456789XE"))
    (repeat 48%N 2 ++ lit "11") (lit "1E5")
  = Ok (repeat 48%N 2 ++ firstn 2 (lit "1E5") ++ repeat 48%N (2 - 3)).
Proof.
  apply (fill_template_placement (with_defaults (lit "0123456789XE")) 48%N 2
           (lit "11") (lit "1E5")); reflexivity.
Defined.

Lemma carry_shape (base : Z) (rev_indexes : list Z) :
  forall r exhausted,
    Radix.carry base rev_indexes = (r, exhausted) ->
    List.length r = List.length rev_indexes
    /\ (exhausted = true ->
        r = repeat 0 (List.length rev_indexes)
        /\ Forall (fun i => i + 1 = base) rev_indexes).
Proof.
  induction rev_indexes as [|i rest IH]; intros r exhausted;
    cbn [Radix.carry].
  - intros [= <- <-]. repeat split. constructor.
  - destruct (i + 1 =? base) eqn:E.
    + destruct (Radix.carry base rest) as [r' exhausted'].
      intros [= <- <-]. destruct (IH r' exhausted' eq_refl) as [Hlen Hex].
      split; [cbn; now rewrite Hlen|].
      intros ->. destruct (Hex eq_refl) as [-> Hall]. split; [reflexivity|].
      constructor; [now apply Z.eqb_eq | assumption].
    + intros [= <- <-]. split; [reflexivity | discriminate].
Qed.

(** X12: the shape of the digits after rounding.  When the remainder is
    above one half and every digit is the largest one, the result is a 1
    followed by as many zeros as there were digits; in every other case,
    the remainder at most one half or some digit not the largest, the
    number of digits is kept. *)
Theorem round_indexes_shape (base : Z) (fraction : float)
    (indexes : list Z) :
  (flt float_half fraction = true ->
   Forall (fun i => i + 1 = base) indexes ->
   Radix.round_indexes base fraction indexes
   = 1 :: repeat 0 (List.length indexes))
  /\ (flt float_half fraction = false
      \/ Exists (fun i => i + 1 <> base) indexes ->
      List.length (Radix.round_indexes base fraction indexes)
      = List.length indexes).
Proof.
  split.
  - intros Hhalf Hall.
    destruct (round_indexes_exact base fraction indexes Hhalf)
      as [(front & d & k & -> & Hd & _) | (k & -> & ->)].
    + apply Forall_app in Hall as [_ Hall].
      apply Forall_inv in Hall. contradiction.
    + now rewrite repeat_length.
  - intros [Hhalf | Hsome].
    + unfold Radix.round_indexes. now rewrite Hhalf.
    + destruct (flt float_half fraction) eqn:Hhalf;
        [|unfold Radix.round_indexes; now rewrite Hhalf].
      destruct (round_indexes_exact base fraction indexes Hhalf)
        as [(front & d & k & -> & Hd & ->) | (k & -> & _)].
      * rewrite !length_app. cbn [List.length].
        now rewrite !repeat_length.
      * apply Exists_exists in Hsome as (i & Hi & Hne).
        apply repeat_spec in Hi. lia.
Qed.

Lemma round_indexes_shape_witness :
  Radix.round_indexes 10 (float_of_ratio 9 10) [9; 9] = [1; 0; 0]
  /\ List.length (Radix.round_indexes 10 (float_of_ratio 9 10) [1; 9; 9])
     = 3%nat.
Proof.
  destruct (round_indexes_shape 10 (float_of_ratio 9 10) [9; 9]) as [H1 _].
  destruct (round_indexes_shape 10 (float_of_ratio 9 10) [1; 9; 9])
    as [_ H2].
  split.
  - apply H1; [reflexivity | repeat constructor].
  - apply H2. right. apply Exists_cons_hd. discriminate.
Defined.

Lemma positional_bound (base : Z) (indexes : list Z) :
  Forall (fun i => 0 <= i < base) indexes ->
  0 <= positional base indexes < base ^ len indexes.
Proof.
  induction 1 as [|i rest Hi _ IH].
  - cbn. lia.
  - rewrite positional_cons.
    replace (len (i :: rest)) with (len rest + 1)
      by (unfold len; cbn [List.length]; lia).
    rewrite Z.pow_add_r, Z.pow_1_r by (unfold len; lia).
    nia.
Qed.

Lemma int_of_float_round_nonneg (m e : Z) (l : location) (z : Z) :
  int_of_float (binary_round_aux prec emax false m e l) = Ok z -> 0 <= z.
Proof.
  unfold binary_round_aux.
  destruct (shr_fexp prec emax m e l) as [mrs' e'].
  destruct (shr_fexp prec emax _ e' loc_Exact) as [mrs'' e''].
  destruct (shr_m mrs'') as [|p|p]; cbn [int_of_float].
  - intros [= <-]. lia.
  - destruct (e'' <=? emax - prec); cbn [int_of_float]; [|discriminate].
    intros [= <-]. destruct (0 <=? e'').
    + change (0 <= Z.pos p * 2 ^ e'').
      pose proof (Z.pow_nonneg 2 e'' ltac:(lia)). nia.
    + change (0 <= Z.pos p / 2 ^ (- e'')).
      pose proof (Z.pow_nonneg 2 (- e'') ltac:(lia)).
      destruct (Z.eq_dec (2 ^ (- e'')) 0) as [E|E].
      * rewrite E, Z.div_0_r. lia.
      * apply Z.div_pos; lia.
  - discriminate.
Qed.

(** The integer part that [encode] extracts is never negative. *)
Lemma split_number_nonneg (n : num) (integer : Z) (fraction : option float) :
  Radix.split_number n = Ok (integer, fraction) -> 0 <= integer.
Proof.
  destruct n as [z|x]; cbn [Radix.split_number].
  - intros [= <- _]. apply Z.abs_nonneg.
  - destruct (float_divmod1 (SFabs x)) as [i f] eqn:E.
    destruct (int_of_float i) as [v| |] eqn:Ei; cbn [bind];
      try discriminate.
    intros [= <- _].
    destruct x as [s|s| |s m e]; cbn [SFabs float_divmod1] in E.
    + injection E as <- _. cbn in Ei. injection Ei as <-. lia.
    + injection E as <- _. discriminate.
    + injection E as <- _. discriminate.
    + destruct (0 <=? e) eqn:Ee.
      * injection E as <- _. cbn [int_of_float] in Ei. rewrite Ee in Ei.
        injection Ei as <-. change (0 <= Z.pos m * 2 ^ e).
        pose proof (Z.pow_nonneg 2 e ltac:(lia)). nia.
      * cbn [negb] in E. injection E as <- _.
        unfold binary_normalize in Ei.
        destruct (Z.pos m / 2 ^ (- e)) as [|q|q] eqn:Eq.
        -- cbn in Ei. injection Ei as <-. lia.
        -- unfold binary_round in Ei.
           destruct (shl_align q 0 _) as [mz ez].
           now apply int_of_float_round_nonneg in Ei.
        -- unfold binary_round in Ei.
           destruct (shl_align q 0 _) as [mz ez].
           pose proof (Z.pow_nonneg 2 (- e) ltac:(lia)).
           destruct (Z.eq_dec (2 ^ (- e)) 0) as [E0|E0].
           ++ rewrite E0, Z.div_0_r in Eq. discriminate.
           ++ assert (0 <= Z.pos m / 2 ^ (- e)) by (apply Z.div_pos; lia).
              lia.
Qed.

(** X13: a float cannot be encoded at a negative scale.  That is the case
    when the given scale is negative, and also, with no format or the
    format 0, when the integer part has more than 17 digits, that is when
    it is at least the 17th power of the base: the scale is then 17 minus
    the number of digits, and [format] refuses the negative precision with
    [ValueError]. *)
Theorem encode_float_negative_scale (fuel : nat) (self : Radix.t)
    (x : float) (fmt : option Z) (integer : Z) (fraction : float) :
  2 <= Radix.base self ->
  Radix.split_number (Float x) = Ok (integer, Some fraction) ->
  integer < 2 ^ Z.of_nat fuel ->
  match fmt with
  | Some z => z < 0 \/ (z = 0 /\ Radix.base self ^ 17 <= integer)
  | None => Radix.base self ^ 17 <= integer
  end ->
  Radix.encode fuel self (Float x) fmt
  = Raise (ValueError (lit "Format specifier missing precision")).
Proof.
  intros Hbase Hsplit Hfuel Hfmt.
  pose proof (split_number_nonneg _ _ _ Hsplit) as Hnn.
  destruct (integer_indexes_spec fuel (Radix.base self) integer Hbase
              (conj Hnn Hfuel)) as (indexes & Hidx & Hval & Hall & _).
  assert (Hlong : Radix.base self ^ 17 <= integer -> 17 < len indexes).
  { intros Hbig. pose proof (positional_bound _ _ Hall) as Hb.
    rewrite Hval in Hb.
    destruct (Z_lt_le_dec 17 (len indexes)) as [|Hle]; [assumption|].
    assert (Radix.base self ^ len indexes <= Radix.base self ^ 17).
    { apply Z.pow_le_mono_r; [lia | assumption]. }
    lia. }
  unfold Radix.encode. rewrite Hsplit. cbn [bind]. rewrite Hidx.
  cbn [bind]. unfold Radix.make_template.
  set (scale := match fmt with
                | Some z => if z =? 0 then 17 - len indexes else z
                | None => 17 - len indexes
                end).
  assert (Hneg : (scale <? 0) = true).
  { apply Z.ltb_lt. subst scale. destruct fmt as [z|].
    - destruct Hfmt as [Hz | [-> Hbig]].
      + assert (E : (z =? 0) = false) by (apply Z.eqb_neq; lia).
        now rewrite E.
      + rewrite Z.eqb_refl. specialize (Hlong Hbig). lia.
    - specialize (Hlong Hfmt). lia. }
  unfold format_f. now rewrite Hneg.
Qed.

Lemma encode_float_negative_scale_witness :
  Radix.encode 64 (with_defaults (lit "0123456789"))
    (Float (float_of_ratio (10 ^ 17) 1)) None
  = Raise (ValueError (lit "Format specifier missing precision")).
Proof.
  apply (encode_float_negative_scale 64 (with_defaults (lit "0123456789"))
           (float_of_ratio (10 ^ 17) 1) None (10 ^ 17) float_zero).
  - cbn. lia.
  - vm_compute. reflexivity.
  - reflexivity.
  - cbn. lia.
Defined.

Lemma char_eqb_sym (a b : char) : char_eqb a b = char_eqb b a.
Proof. apply N.eqb_sym. Qed.

Lemma rstrip_no_trailing (zero : char) (s : str) :
  endswith [zero] (rstrip [zero] s) = false.
Proof.
  unfold endswith, rstrip. rewrite rev_involutive. cbn [rev app].
  induction (rev s) as [|c t IH]; cbn [dropwhile]; [reflexivity|].
  destruct (char_in c [zero]) eqn:E; [assumption|].
  cbn in E |- *. rewrite orb_false_r in E.
  now rewrite char_eqb_sym, E.
Qed.

(** X14: with no format, or the format 0, the encoding of a float never
    ends with a zero digit, except for the single one [encode] puts back
    after a separator that would otherwise end the string. *)
Theorem encode_float_no_trailing_zero (fuel : nat) (self : Radix.t)
    (x : float) (fmt : option Z) (zero : char) (s : str) :
  getitem (Radix.digits self) 0 = Ok zero ->
  Radix.not_fmt fmt = true ->
  Radix.encode fuel self (Float x) fmt = Ok s ->
  endswith [zero] s = false
  \/ (exists t, s = t ++ [zero] /\ endswith (Radix.sep self) t = true
                /\ endswith [zero] t = false).
Proof.
  intros Hzero Hfmt. unfold Radix.encode.
  destruct (Radix.split_number (Float x)) as [[integer fraction]| |] eqn:Es;
    cbn [bind]; try discriminate.
  assert (Hfr : exists f, fraction = Some f).
  { cbn [Radix.split_number] in Es.
    destruct (float_divmod1 (SFabs x)) as [i f].
    destruct (int_of_float i); cbn [bind] in Es; try discriminate.
    injection Es as _ <-. now exists f. }
  destruct Hfr as [f ->].
  destruct (Radix.integer_indexes _ _ _) as [indexes| |]; cbn [bind];
    try discriminate.
  destruct (Radix.make_template _ _ _ _) as [[scale template]| |];
    cbn [bind]; try discriminate.
  destruct (Radix.fraction_indexes _ _ _ _) as [[all rest]| |]; cbn [bind];
    try discriminate.
  destruct (Radix.lookup_digits _ _) as [digits| |]; cbn [bind];
    try discriminate.
  destruct (Radix._fill_template _ _ _) as [output| |]; cbn [bind];
    try discriminate.
  rewrite Hfmt, Hzero. cbn [andb bind].
  destruct (endswith (Radix.sep self) (rstrip [zero] output)) eqn:Esep.
  - intros [= <-]. right. exists (rstrip [zero] output).
    repeat split; [assumption | apply rstrip_no_trailing].
  - intros [= <-]. left. apply rstrip_no_trailing.
Qed.

Lemma encode_float_no_trailing_zero_witness :
  endswith (lit "0") (lit "100.0") = false
  \/ (exists t, lit "100.0" = t ++ lit "0" /\ endswith (lit ".") t = true
                /\ endswith (lit "0") t = false).
Proof.
  apply (encode_float_no_trailing_zero 64 (with_defaults (lit "0123456789"))
           (float_of_ratio 100 1) None 48%N (lit "100.0")).
  - reflexivity.
  - reflexivity.
  - vm_compute. reflexivity.
Defined.

(** ** The scale of a format string *)

Lemma fold_digits_acc (u : Decimal.uint) :
  forall acc : positive,
    fold_left (fun a c => a * 10 + (Z.of_N c - 48)) (str_of_uint u)
      (Z.pos acc)
    = Z.pos (Pos.of_uint_acc u acc).
Proof.
  induction u; intros acc; cbn [str_of_uint fold_left Pos.of_uint_acc];
    try reflexivity;
    match goal with
    | |- fold_left _ _ ?a = _ =>
        match goal with
        | |- _ = Z.pos (Pos.of_uint_acc _ ?b) =>
            replace a with (Z.pos b) by lia
        end
    end; apply IHu.
Qed.

Lemma fold_digits (u : Decimal.uint) :
  fold_left (fun a c => a * 10 + (Z.of_N c - 48)) (str_of_uint u) 0
  = Z.of_uint u.
Proof.
  unfold Z.of_uint.
  induction u; cbn [str_of_uint fold_left Pos.of_uint]; try reflexivity;
    try (apply IHu);
    match goal with
    | |- fold_left _ _ ?a = Z.of_N (N.pos (Pos.of_uint_acc _ ?b)) =>
        replace a with (Z.pos b) by lia
    end; apply fold_digits_acc.
Qed.

Lemma str_of_uint_digits (u : Decimal.uint) :
  forallb (fun c => char_in c string_digits) (str_of_uint u) = true.
Proof. induction u; cbn [str_of_uint forallb]; try reflexivity; now rewrite IHu. Qed.

Lemma takewhile_app (p : char -> bool) (s post : str) :
  forallb p s = true ->
  (post = [] \/ exists c rest, post = c :: rest /\ p c = false) ->
  takewhile p (s ++ post) = s.
Proof.
  intros Hs Hpost. induction s as [|c s IH]; cbn [app takewhile].
  - destruct Hpost as [-> | (c & rest & -> & Hc)]; cbn; [reflexivity|].
    now rewrite Hc.
  - cbn in Hs. apply andb_prop in Hs as [-> Hs]. now rewrite IH.
Qed.

Lemma format_d_nonneg (n : Z) :
  0 <= n ->
  exists u, format_d n = str_of_uint u /\ Z.of_uint u = n
            /\ str_of_uint u <> [].
Proof.
  intros Hn. unfold format_d. pose proof (DecimalZ.of_to n) as Hof.
  destruct n as [|p|p]; [| |lia].
  - exists (Decimal.D0 Decimal.Nil). repeat split. discriminate.
  - cbn [Z.to_int] in *. exists (Pos.to_uint p). repeat split.
    + exact Hof.
    + intros E. cbn [Z.of_int] in Hof.
      rewrite <- fold_digits, E in Hof. discriminate.
Qed.

(** X15: [_get_scale_from_format] reads back the decimal numeral that
    follows the first point of a format string, whatever comes before the
    point and whatever non-digit comes after the numeral; so the format
    ["." + str(scale) + "f"] that [encode] builds has the scale it was
    built from.  The integers are those whose numeral CPython's [int]
    accepts at any version, of at most 4300 digits. *)
Theorem get_scale_reads_back (pre post : str) (n : Z) :
  0 <= n < 10 ^ 4300 ->
  char_in 46%N pre = false ->
  (post = [] \/ exists c rest, post = c :: rest
                               /\ char_in c string_digits = false) ->
  Radix._get_scale_from_format (pre ++ lit "." ++ format_d n ++ post)
  = Some n.
Proof.
  intros [Hn _] Hpre Hpost. unfold Radix._get_scale_from_format.
  change (lit "." ++ format_d n ++ post) with (46%N :: format_d n ++ post).
  rewrite (str_index_first 46%N pre _ Hpre).
  replace (List.length pre + 1)%nat with (List.length (pre ++ [46%N]))
    by (rewrite length_app; reflexivity).
  change (pre ++ 46%N :: format_d n ++ post)
    with (pre ++ [46%N] ++ format_d n ++ post).
  rewrite app_assoc, skipn_app, skipn_all, Nat.sub_diag. cbn [app skipn].
  destruct (format_d_nonneg n Hn) as (u & -> & Hu & Hne).
  rewrite (takewhile_app _ _ _ (str_of_uint_digits u) Hpost).
  unfold int_of_digits. rewrite fold_digits, Hu.
  now destruct (str_of_uint u).
Qed.

Lemma get_scale_reads_back_witness :
  Radix._get_scale_from_format (lit "+08" ++ lit "." ++ format_d 3 ++ lit "f")
  = Some 3.
Proof.
  apply (get_scale_reads_back (lit "+08") (lit "f") 3).
  - split; [lia | reflexivity].
  - reflexivity.
  - right. exists 102%N, []. split; reflexivity.
Defined.

Lemma get_scale_cases (fmt : str) :
  match Radix._get_scale_from_format fmt with
  | None =>
      str_index (lit ".") fmt = None
      \/ exists i, str_index (lit ".") fmt = Some i
                   /\ match nth_error fmt (i + 1) with
                      | Some c => char_in c string_digits = false
                      | None => True
                      end
  | Some n =>
      0 <= n
      /\ exists i c, str_index (lit ".") fmt = Some i
                     /\ nth_error fmt (i + 1) = Some c
                     /\ char_in c string_digits = true
  end.
Proof.
  unfold Radix._get_scale_from_format.
  destruct (str_index (lit ".") fmt) as [i|]; [|now left].
  assert (Hnth : forall k (s : str), nth_error s k = hd_error (skipn k s)).
  { induction k as [|k IH]; intros [|c s]; cbn; auto. }
  pose proof (Hnth (i + 1)%nat fmt) as Hh.
  destruct (skipn (i + 1) fmt) as [|c rest]; cbn [hd_error] in Hh;
    cbn [takewhile].
  - cbn [int_of_digits]. right. exists i. now rewrite Hh.
  - destruct (char_in c string_digits) eqn:Ec.
    + cbn [int_of_digits]. split.
      * assert (G : forall (s : str) acc,
                   forallb (fun c => char_in c string_digits) s = true ->
                   0 <= acc ->
                   0 <= fold_left (fun a c => a * 10 + (Z.of_N c - 48)) s acc).
        { induction s as [|d s IH]; intros acc Hs Hacc; cbn [fold_left];
            [assumption|].
          cbn [forallb] in Hs. apply andb_prop in Hs as [Hd Hs].
          apply IH; [assumption|].
          assert (48 <= Z.of_N d).
          { unfold char_in, string_digits in Hd. cbn in Hd.
            repeat (apply orb_prop in Hd as [Hd|Hd];
                    [apply N.eqb_eq in Hd; subst d; cbn; lia|]).
            discriminate. }
          lia. }
        apply G; [|lia]. cbn [forallb]. rewrite Ec. cbn [andb].
        clear. induction rest as [|d rest IH]; cbn [takewhile forallb];
          [reflexivity|].
        destruct (char_in d string_digits) eqn:Ed; cbn [forallb];
          [now rewrite Ed | reflexivity].
      * exists i, c. now rewrite Hh.
    + cbn [int_of_digits]. right. exists i. now rewrite Hh.
Qed.

(** X16: a format string with no point, or with no digit right after its
    first point, has no scale ([None]); and a scale is never negative. *)
Theorem get_scale_none_or_nonneg (fmt : str) :
  (str_index (lit ".") fmt = None ->
   Radix._get_scale_from_format fmt = None)
  /\ (forall i,
        str_index (lit ".") fmt = Some i ->
        match nth_error fmt (i + 1) with
        | Some c => char_in c string_digits = false
        | None => True
        end ->
        Radix._get_scale_from_format fmt = None)
  /\ (forall n, Radix._get_scale_from_format fmt = Some n -> 0 <= n).
Proof.
  pose proof (get_scale_cases fmt) as H. repeat split.
  - intros E. unfold Radix._get_scale_from_format. now rewrite E.
  - intros i Ei Hc.
    destruct (Radix._get_scale_from_format fmt) as [n|]; [|reflexivity].
    destruct H as (_ & j & c & Ej & Ec & Hd).
    rewrite Ei in Ej. injection Ej as <-. rewrite Ec in Hc. congruence.
  - intros n E. rewrite E in H. apply H.
Qed.

Lemma get_scale_none_or_nonneg_witness :
  Radix._get_scale_from_format (lit "+03d") = None
  /\ Radix._get_scale_from_format (lit ".e") = None.
Proof.
  destruct (get_scale_none_or_nonneg (lit "+03d")) as (H1 & _ & _).
  destruct (get_scale_none_or_nonneg (lit ".e")) as (_ & H2 & _).
  split; [apply H1; reflexivity | apply (H2 0%nat); reflexivity].
Defined.

(** ** Wrapping *)

Lemma pyobj_nested_ind (P : pyobj -> Prop) :
  (forall n, P (ObjNum n)) ->
  (forall s, P (ObjStr s)) ->
  (forall items, Forall P items -> P (ObjTuple items)) ->
  (forall items, Forall P items -> P (ObjList items)) ->
  forall obj, P obj.
Proof.
  intros Hnum Hstr Htuple Hlist. fix IH 1. intros [n|s|items|items].
  - apply Hnum.
  - apply Hstr.
  - apply Htuple. induction items as [|x items IHitems]; constructor;
      [apply IH | exact IHitems].
  - apply Hlist. induction items as [|x items IHitems]; constructor;
      [apply IH | exact IHitems].
Qed.

Section Wrap.

Variable libm_pow : Z -> Z -> float.
Variable self : Radix.t.

Lemma wrap_each_ok (items : list pyobj) :
  Forall (fun obj =>
            (exists w, wrap_obj libm_pow self obj = Ok w)
            <-> Forall (decodes libm_pow self) (str_leaves obj)) items ->
  (exists ws,
     (fix each (items : list pyobj) : result (list wrapped) :=
        match items with
        | [] => Ok []
        | x :: rest =>
            w <- wrap_obj libm_pow self x ;;
            ws <- each rest ;;
            Ok (w :: ws)
        end) items = Ok ws)
  <-> Forall (decodes libm_pow self) (flat_map str_leaves items).
Proof.
  induction 1 as [|x items [Hx1 Hx2] _ [IH1 IH2]]; cbn [flat_map].
  - split; [constructor | now exists []].
  - rewrite Forall_app. split.
    + intros [ws Hws].
      destruct (wrap_obj libm_pow self x) as [w| |]; cbn [bind] in Hws;
        try discriminate.
      split; [apply Hx1; now exists w|].
      apply IH1. destruct ((fix each (items : list pyobj) := _) items)
        as [ws'| |]; cbn [bind] in Hws; try discriminate.
      now exists ws'.
    + intros [Hl Hr]. destruct (Hx2 Hl) as [w ->].
      destruct (IH2 Hr) as [ws ->]. cbn [bind]. now exists (w :: ws).
Qed.

Lemma wrap_obj_succeeds_iff (obj : pyobj) :
  (exists w, wrap_obj libm_pow self obj = Ok w)
  <-> Forall (decodes libm_pow self) (str_leaves obj).
Proof.
  induction obj as [n|s|items IH|items IH] using pyobj_nested_ind.
  - cbn. split; [constructor | eauto].
  - cbn [wrap_obj str_leaves RadixFormatWrapper.init]. unfold decodes.
    split.
    + intros [w Hw]. constructor; [|constructor].
      destruct (Radix.decode libm_pow self s) as [n| |]; cbn [bind] in Hw;
        try discriminate.
      now exists n.
    + intros H. inversion H as [|? ? [n Hn] _]; subst.
      rewrite Hn. cbn [bind]. eauto.
  - cbn [wrap_obj str_leaves]. rewrite <- (wrap_each_ok items IH). split.
    + intros [w Hw].
      destruct ((fix each (items : list pyobj) := _) items) as [ws| |];
        cbn [bind] in Hw; try discriminate. now exists ws.
    + intros [ws ->]. cbn [bind]. eauto.
  - cbn [wrap_obj str_leaves]. rewrite <- (wrap_each_ok items IH). split.
    + intros [w Hw].
      destruct ((fix each (items : list pyobj) := _) items) as [ws| |];
        cbn [bind] in Hw; try discriminate. now exists ws.
    + intros [ws ->]. cbn [bind]. eauto.
Qed.

End Wrap.

(** X17: [wrap] decodes every string it is given at once, and so returns
    exactly when [decode] returns on each string among the leaves of its
    arguments; one string that does not decode makes the whole call
    raise. *)
Theorem wrap_succeeds_iff (libm_pow : Z -> Z -> float) (self : Radix.t)
    (obj : list pyobj) :
  (exists w, wrap libm_pow self obj = Ok w)
  <-> Forall (decodes libm_pow self) (flat_map str_leaves obj).
Proof.
  unfold wrap.
  destruct obj as [|x [|y rest]];
    try exact (wrap_obj_succeeds_iff libm_pow self (ObjTuple _)).
  cbn [flat_map]. rewrite List.app_nil_r.
  apply wrap_obj_succeeds_iff.
Qed.

(** X18: wrapping the encoding of an integer gives a wrapper that holds
    that integer and the alphabet, and whose [__str__] is the encoding
    again. *)
Theorem wrap_of_encoding (libm_pow : Z -> Z -> float) (fuel : nat)
    (self : Radix.t) (n : Z) :
  well_formed self = true ->
  Z.abs n < 2 ^ Z.of_nat fuel ->
  exists s,
    Radix.encode fuel self (Int n) None = Ok s
    /\ wrap libm_pow self [ObjStr s]
       = Ok (Wrapper (RadixFormatWrapper.mk (Int n) self))
    /\ RadixFormatWrapper.__str__ fuel (RadixFormatWrapper.mk (Int n) self)
       = Ok s.
Proof.
  intros Hwf Hfuel.
  destruct (encode_int self Hwf fuel n Hfuel)
    as (indexes & ds & Henc & Hsp & Hne & Hval).
  eexists. split; [exact Henc|]. split; [|exact Henc].
  cbn [wrap wrap_obj RadixFormatWrapper.init].
  rewrite (decode_integer_string libm_pow self Hwf _ indexes ds Hsp Hne).
  cbn [bind]. rewrite Hval. do 4 f_equal.
  destruct (n <? 0) eqn:E; cbn [signed];
    [apply Z.ltb_lt in E | apply Z.ltb_ge in E]; lia.
Qed.

Lemma wrap_of_encoding_witness :
  exists s,
    Radix.encode 8 (with_defaults (lit "0123456789XE")) (Int (-13)) None
    = Ok s
    /\ wrap correctly_rounded_pow (with_defaults (lit "0123456789XE"))
         [ObjStr s]
       = Ok (Wrapper (RadixFormatWrapper.mk (Int (-13))
                        (with_defaults (lit "0123456789XE"))))
    /\ RadixFormatWrapper.__str__ 8
         (RadixFormatWrapper.mk (Int (-13))
            (with_defaults (lit "0123456789XE")))
       = Ok s.
Proof.
  apply (wrap_of_encoding correctly_rounded_pow 8
           (with_defaults (lit "0123456789XE")) (-13)); reflexivity.
Defined.

(** ** The alphabets of the class *)

Lemma round_trip_int (libm_pow : Z -> Z -> float) (fuel : nat)
    (self : Radix.t) (n : Z) :
  well_formed self = true ->
  Z.abs n < 2 ^ Z.of_nat fuel ->
  (s <- Radix.encode fuel self (Int n) None ;; Radix.decode libm_pow self s)
  = Ok (Int n).
Proof.
  intros Hwf Hfuel.
  destruct (encode_int self Hwf fuel n Hfuel)
    as (indexes & ds & -> & Hsp & Hne & Hval).
  cbn [bind].
  rewrite (decode_integer_string libm_pow self Hwf _ indexes ds Hsp Hne).
  rewrite Hval. do 2 f_equal.
  destruct (n <? 0) eqn:E; cbn [signed];
    [apply Z.ltb_lt in E | apply Z.ltb_ge in E]; lia.
Qed.

(** X19: the alphabet [by_base(b)] carries every integer through [encode]
    and [decode] unchanged, for every [b] whose absolute value is between 2
    and 62. *)
Theorem by_base_round_trip (libm_pow : Z -> Z -> float) (fuel : nat)
    (b n : Z) :
  2 <= Z.abs b <= 62 ->
  Z.abs n < 2 ^ Z.of_nat fuel ->
  (r <- Radix.by_base b Radix.no_kwargs ;;
   s <- Radix.encode fuel r (Int n) None ;;
   Radix.decode libm_pow r s)
  = Ok (Int n).
Proof.
  intros Hb Hfuel.
  assert (E : Radix.by_base b Radix.no_kwargs
              = Radix.by_base (Z.abs b) Radix.no_kwargs).
  { unfold Radix.by_base. now rewrite Z.abs_idemp. }
  rewrite E. pose proof (by_base_well_formed (Z.abs b) Hb) as Hwf.
  destruct (Radix.by_base (Z.abs b) Radix.no_kwargs) as [r| |];
    try discriminate.
  cbn [bind]. now apply round_trip_int.
Qed.

Lemma by_base_round_trip_witness :
  (r <- Radix.by_base (-36) Radix.no_kwargs ;;
   s <- Radix.encode 16 r (Int (-46655)) None ;;
   Radix.decode correctly_rounded_pow r s)
  = Ok (Int (-46655)).
Proof.
  apply (by_base_round_trip correctly_rounded_pow 16 (-36) (-46655)).
  - cbn. lia.
  - reflexivity.
Defined.

(** X20: each named alphabet of the class, taken with no keyword argument,
    carries every integer through [encode] and [decode] unchanged. *)
Theorem presets_round_trip (libm_pow : Z -> Z -> float) (fuel : nat)
    (preset : result Radix.t) (n : Z) :
  In preset presets ->
  Z.abs n < 2 ^ Z.of_nat fuel ->
  (r <- preset ;;
   s <- Radix.encode fuel r (Int n) None ;;
   Radix.decode libm_pow r s)
  = Ok (Int n).
Proof.
  intros Hin Hfuel. pose proof presets_well_formed as H.
  rewrite forallb_forall in H. specialize (H preset Hin).
  destruct preset as [r| |]; try discriminate.
  cbn [bind]. now apply round_trip_int.
Qed.

Lemma presets_round_trip_witness :
  (r <- Radix.dozenal_pitman Radix.no_kwargs ;;
   s <- Radix.encode 16 r (Int 1727) None ;;
   Radix.decode correctly_rounded_pow r s)
  = Ok (Int 1727).
Proof.
  apply (presets_round_trip correctly_rounded_pow 16
           (Radix.dozenal_pitman Radix.no_kwargs) 1727).
  - unfold presets. cbn [map]. do 5 right. left. reflexivity.
  - reflexivity.
Defined.

Lemma binary_round_aux_sign_clear (m e : Z) (l : location) :
  sign_clear (binary_round_aux prec emax false m e l) = true.
Proof.
  unfold binary_round_aux.
  destruct (shr_fexp prec emax m e l) as [mrs' e'].
  destruct (shr_fexp prec emax _ e' loc_Exact) as [mrs'' e''].
  destruct (shr_m mrs''); [reflexivity | | reflexivity].
  now destruct (e'' <=? emax - prec).
Qed.

Lemma binary_normalize_sign_clear (m e : Z) :
  0 <= m -> sign_clear (binary_normalize prec emax m e false) = true.
Proof.
  intros Hm. destruct m as [|p|p]; [reflexivity | | lia].
  unfold binary_normalize, binary_round.
  destruct (shl_align p e _). apply binary_round_aux_sign_clear.
Qed.

Lemma fmul_sign_clear (x y : float) :
  sign_clear x = true -> sign_clear y = true -> sign_clear (fmul x y) = true.
Proof.
  destruct x as [[|]|[|]| |[|] mx ex], y as [[|]|[|]| |[|] my ey];
    cbn; try discriminate; try reflexivity.
  intros _ _. apply binary_round_aux_sign_clear.
Qed.

Lemma float_divmod1_sign_clear (x : float) :
  sign_clear x = true ->
  sign_clear (fst (float_divmod1 x)) = true
  /\ sign_clear (snd (float_divmod1 x)) = true.
Proof.
  destruct x as [[|]|[|]| |[|] m e]; cbn [sign_clear negb]; try discriminate;
    intros _; cbn [float_divmod1 fst snd]; try (split; reflexivity).
  destruct (0 <=? e); cbn [negb fst snd]; [split; reflexivity|].
  pose proof (Z.pow_nonneg 2 (- e) ltac:(lia)).
  split; apply binary_normalize_sign_clear.
  - destruct (Z.eq_dec (2 ^ (- e)) 0) as [E|E];
      [rewrite E, Z.div_0_r; lia | apply Z.div_pos; lia].
  - destruct (Z.eq_dec (2 ^ (- e)) 0) as [E|E];
      [rewrite E, Z.mod_0_r; lia | apply Z.mod_pos_bound; lia].
Qed.

Lemma int_of_float_sign_clear (x : float) (v : Z) :
  sign_clear x = true -> int_of_float x = Ok v -> 0 <= v.
Proof.
  destruct x as [s|s| |[|] m e]; cbn [sign_clear negb int_of_float];
    try discriminate.
  - intros _ [= <-]. lia.
  - intros _ [= <-].
    change (0 <= (if 0 <=? e then Z.pos m * 2 ^ e
                  else Z.pos m / 2 ^ (- e))).
    destruct (0 <=? e).
    + pose proof (Z.pow_nonneg 2 e ltac:(lia)). nia.
    + pose proof (Z.pow_nonneg 2 (- e) ltac:(lia)).
      destruct (Z.eq_dec (2 ^ (- e)) 0) as [E|E];
        [rewrite E, Z.div_0_r; lia | apply Z.div_pos; lia].
Qed.

Lemma float_of_int_sign_clear (z : Z) (b : float) :
  0 <= z -> float_of_int z = Ok b -> sign_clear b = true.
Proof.
  intros Hz. unfold float_of_int.
  pose proof (binary_normalize_sign_clear z 0 Hz) as H.
  destruct (binary_normalize prec emax z 0 false); try discriminate;
    now intros [= <-].
Qed.

(** X21: on a base and a fraction that are not negative, the loop over the
    fraction appends one digit per unit of scale to the integer digits and
    leaves these as they are; none of the digits it appends is negative,
    and the remainder it leaves is not negative either. *)
Theorem fraction_indexes_appends (n : nat) (base : Z) :
  0 <= base ->
  forall (fraction rest : float) (indexes all : list Z),
    sign_clear fraction = true ->
    Radix.fraction_indexes n base fraction indexes = Ok (all, rest) ->
    sign_clear rest = true
    /\ exists fracs,
         all = indexes ++ fracs
         /\ List.length fracs = n
         /\ Forall (fun i => 0 <= i) fracs.
Proof.
  intros Hbase. induction n as [|n IH]; intros fraction rest indexes all Hf;
    cbn [Radix.fraction_indexes].
  - intros [= <- <-]. split; [assumption|]. exists [].
    rewrite List.app_nil_r. repeat split. constructor.
  - destruct (float_of_int base) as [b| |] eqn:Eb; cbn [bind];
      try discriminate.
    pose proof (float_of_int_sign_clear base b Hbase Eb) as Hb.
    pose proof (float_divmod1_sign_clear _
                  (fmul_sign_clear fraction b Hf Hb)) as [Hi Hr].
    destruct (float_divmod1 (fmul fraction b)) as [index fraction'].
    cbn [fst snd] in Hi, Hr.
    destruct (int_of_float index) as [v| |] eqn:Ev; cbn [bind];
      try discriminate.
    intros Hrun.
    destruct (IH _ _ _ _ Hr Hrun) as (Hrest & fracs & -> & Hlen & Hall).
    split; [assumption|].
    exists (v :: fracs). rewrite <- app_assoc.
    repeat split; [cbn; now rewrite Hlen|].
    constructor; [exact (int_of_float_sign_clear _ _ Hi Ev) | assumption].
Qed.

Lemma fraction_indexes_appends_witness :
  sign_clear float_half = true
  /\ exists fracs,
       [0; 2] = [0] ++ fracs
       /\ List.length fracs = 1%nat
       /\ Forall (fun i => 0 <= i) fracs.
Proof.
  apply (fraction_indexes_appends 1 10 ltac:(lia) (float_of_ratio 25 100)
           float_half [0] [0; 2]).
  - reflexivity.
  - vm_compute. reflexivity.
Defined.
